(** * PromisePool: a bounded task scheduler

    A shallow embedding of [src/PromisePool.ts].  The executor passed to
    [new Promise] owns six closure variables ([completed], [ongoing],
    [started], [ended], [draining], [errors]) and two closures
    ([checkCompletion], [trigger]).  JavaScript runs every callback to
    completion before the next one starts, so the program is a transition
    system: the synchronous body of the executor gives the start state, and
    each later transition is the [then]-handler of one task promise that was
    still pending.

    Numbers are modelled as [Z] (the source has [number]; only integers are
    considered).  A task is given by the way its promise settles; a promise
    that has not settled yet, or never does, stays in the list of pending
    promises.  Besides the closure variables the state records what the
    scheduler does to its environment: the calls of the task and the calls
    of [resolve] and [reject]. *)

From Stdlib Require Import ZArith String Decimal DecimalString.
From stdpp Require Import base tactics option list list_numbers relations.

Local Open Scope Z_scope.

(** ** Data model *)

(** [type OnError = 'abort' | 'drain' | 'continue'] *)
Inductive OnError : Type := Abort | Drain | Continue.

Global Instance OnError_eq_dec : EqDecision OnError.
Proof. solve_decision. Defined.

(** A rejection value thrown by a task, represented by its identity. *)
Definition Error : Type := nat.

(** How the promise returned by [task(index)] settles. *)
Inductive Settlement : Type :=
| Fulfilled
| RejectedWith (e : Error).

(** [interface PromisePoolOptions] *)
Record PromisePoolOptions : Type := mkOptions {
  concurrency : Z;
  count : Z;
  task : Z -> Settlement;
  onError : OnError;
}.

(** The argument of [reject]: either the task's own error, passed on as it
    is, or [new AggregateError(errors, message)]. *)
Inductive Reason : Type :=
| Plain (e : Error)
| AggregateError (errs : list Error) (message : string).

(** One call of the promise's [resolve] or [reject] function. *)
Inductive Signal : Type :=
| resolve
| reject (r : Reason).

(** The closure variables of the executor, followed by the part of the
    environment the scheduler acts on:
    - [pending]: the task promises that have not settled yet (their
      [then]-handlers are registered and have not run);
    - [calls]: the arguments of the calls [task(index)], oldest first;
    - [settled]: the indices whose handler has run, oldest first;
    - [signals]: the calls of [resolve] and [reject], oldest first. *)
Record State : Type := mkState {
  completed : Z;
  ongoing : Z;
  started : Z;
  ended : bool;
  draining : bool;
  errors : list Error;
  pending : list Z;
  calls : list Z;
  settled : list Z;
  signals : list Signal;
}.

(** The template literal [`${n} task(s) failed`]. *)
Definition failed_message (n : nat) : string :=
  (NilZero.string_of_uint (Nat.to_uint n) ++ " task(s) failed")%string.

(** State at the beginning of the executor (lines 33-38). *)
Definition initial : State :=
  {| completed := 0; ongoing := 0; started := 0;
     ended := false; draining := false; errors := [];
     pending := []; calls := []; settled := []; signals := [] |}.

(** Single-field updates of the closure variables and of the environment. *)
Definition set_ended (b : bool) (s : State) : State :=
  mkState (completed s) (ongoing s) (started s) b (draining s) (errors s)
          (pending s) (calls s) (settled s) (signals s).

Definition set_draining (b : bool) (s : State) : State :=
  mkState (completed s) (ongoing s) (started s) (ended s) b (errors s)
          (pending s) (calls s) (settled s) (signals s).

Definition set_completed (n : Z) (s : State) : State :=
  mkState n (ongoing s) (started s) (ended s) (draining s) (errors s)
          (pending s) (calls s) (settled s) (signals s).

Definition set_ongoing (n : Z) (s : State) : State :=
  mkState (completed s) n (started s) (ended s) (draining s) (errors s)
          (pending s) (calls s) (settled s) (signals s).

Definition set_started (n : Z) (s : State) : State :=
  mkState (completed s) (ongoing s) n (ended s) (draining s) (errors s)
          (pending s) (calls s) (settled s) (signals s).

Definition push_error (e : Error) (s : State) : State :=
  mkState (completed s) (ongoing s) (started s) (ended s) (draining s)
          (errors s ++ [e]) (pending s) (calls s) (settled s) (signals s).

Definition emit (sig : Signal) (s : State) : State :=
  mkState (completed s) (ongoing s) (started s) (ended s) (draining s)
          (errors s) (pending s) (calls s) (settled s) (signals s ++ [sig]).

(** [task(index).then(onFulfilled, onRejected)]: the task is called and its
    promise is pending from now on. *)
Definition call_task (index : Z) (s : State) : State :=
  mkState (completed s) (ongoing s) (started s) (ended s) (draining s)
          (errors s) (pending s ++ [index]) (calls s ++ [index]) (settled s)
          (signals s).

(** The promise at position [k] of [pending] settles: it leaves [pending]
    and its index is recorded. *)
Definition take_pending (k : nat) (index : Z) (s : State) : State :=
  mkState (completed s) (ongoing s) (started s) (ended s) (draining s)
          (errors s) (delete k (pending s)) (calls s) (settled s ++ [index])
          (signals s).

(** ** The scheduler *)

Section Scheduler.

Variable cfg : PromisePoolOptions.

(** [checkCompletion] (lines 40-57). *)
Definition checkCompletion (s : State) : State :=
  if ended s then s
  else
    let finished := completed s + Z.of_nat (length (errors s)) in
    let allStartedFinished :=
      (started s =? finished + ongoing s) && (ongoing s =? 0) in
    let allTasksCompleted := completed s >=? count cfg in
    if allTasksCompleted || (draining s && allStartedFinished) then
      let s1 := set_ended true s in
      if (0 <? length (errors s1))%nat then
        emit (reject (AggregateError (errors s1)
                        (failed_message (length (errors s1))))) s1
      else emit resolve s1
    else s.

(** Lines 79-83 of [trigger]: take the next index and call the task. *)
Definition launch (s : State) : State :=
  let index := started s in
  let s1 := set_started (started s + 1) s in
  let s2 := set_ongoing (ongoing s1 + 1) s1 in
  call_task index s2.

(** [trigger] (lines 59-116).  The function calls itself after each launch
    (line 114); every such call has one more task in flight, so
    [count - (completed + ongoing)] bounds the depth of the recursion.
    [trigger_loop] recurses on that bound; [trigger_unfold] below shows that
    the bound is never exhausted, that is, [trigger] satisfies the
    recursive equation of the source. *)
Fixpoint trigger_loop (depth : nat) (s : State) : State :=
  if ended s then s
  else if completed s >=? count cfg then checkCompletion s
  else if draining s then checkCompletion s
  else if completed s + ongoing s >=? count cfg then s
  else if ongoing s <? concurrency cfg then
    match depth with
    | O => s
    | S d => trigger_loop d (launch s)
    end
  else s.

Definition trigger (s : State) : State :=
  trigger_loop (Z.to_nat (count cfg - (completed s + ongoing s))) s.

(** The fulfilment handler (lines 84-88). *)
Definition onFulfilled (s : State) : State :=
  let s1 := set_ongoing (ongoing s - 1) s in
  let s2 := set_completed (completed s1 + 1) s1 in
  trigger s2.

(** The rejection handler (lines 89-111). *)
Definition onRejected (e : Error) (s : State) : State :=
  let s1 := set_ongoing (ongoing s - 1) s in
  let s2 := push_error e s1 in
  match onError cfg with
  | Abort =>
      if negb (ended s2) then emit (reject (Plain e)) (set_ended true s2)
      else s2
  | Drain => checkCompletion (set_draining true s2)
  | Continue => trigger (set_completed (completed s2 + 1) s2)
  end.

(** The pending promise at position [k] settles and its handler runs. *)
Definition settle (k : nat) (s : State) : State :=
  match pending s !! k with
  | None => s
  | Some index =>
      let s1 := take_pending k index s in
      match task cfg index with
      | Fulfilled => onFulfilled s1
      | RejectedWith e => onRejected e s1
      end
  end.

(** The loop of lines 118-120.  [i] is the loop variable; the loop runs at
    most [count] times, which bounds the recursion. *)
Fixpoint start_loop (bound : nat) (i : Z) (s : State) : State :=
  if (i <? concurrency cfg) && (i <? count cfg) then
    match bound with
    | O => s
    | S b => start_loop b (i + 1) (trigger s)
    end
  else s.

(** The executor (lines 32-125): the state in which [new Promise] returns. *)
Definition PromisePool : State :=
  let s := start_loop (Z.to_nat (count cfg)) 0 initial in
  if count cfg =? 0 then emit resolve s else s.

(** ** Runs *)

(** One transition: some pending task promise settles. *)
Definition step (s s' : State) : Prop :=
  exists k, is_Some (pending s !! k) /\ s' = settle k s.

(** The states a run can be observed in, between two callbacks. *)
Inductive reachable : State -> Prop :=
| reach_start : reachable PromisePool
| reach_settle s k :
    reachable s -> is_Some (pending s !! k) -> reachable (settle k s).

(** The states at the head of the start loop, with the remaining bound and
    the value of the loop variable. *)
Inductive start_entry : nat -> Z -> State -> Prop :=
| se_first : start_entry (Z.to_nat (count cfg)) 0 initial
| se_next b i s :
    start_entry (S b) i s ->
    (i <? concurrency cfg) && (i <? count cfg) = true ->
    start_entry b (i + 1) (trigger s).

(** The states in which [trigger] is entered: from the start loop, from a
    handler, or from [trigger] itself after a launch (line 114). *)
Inductive trigger_point : State -> Prop :=
| tp_loop b i s :
    start_entry (S b) i s ->
    (i <? concurrency cfg) && (i <? count cfg) = true ->
    trigger_point s
| tp_fulfilled s k index :
    reachable s -> pending s !! k = Some index ->
    task cfg index = Fulfilled ->
    trigger_point
      (set_completed (completed s + 1)
         (set_ongoing (ongoing s - 1) (take_pending k index s)))
| tp_continue s k index e :
    reachable s -> pending s !! k = Some index ->
    task cfg index = RejectedWith e -> onError cfg = Continue ->
    trigger_point
      (set_completed (completed s + 1)
         (push_error e (set_ongoing (ongoing s - 1) (take_pending k index s))))
| tp_rec s :
    trigger_point s ->
    ended s = false -> (completed s >=? count cfg) = false ->
    draining s = false -> (completed s + ongoing s >=? count cfg) = false ->
    (ongoing s <? concurrency cfg) = true ->
    trigger_point (launch s).

(** ** Invariants of the scheduler *)

(** The error a task rejects with, if it does. *)
Definition failure_of (index : Z) : option Error :=
  match task cfg index with
  | Fulfilled => None
  | RejectedWith e => Some e
  end.

(** The number of failures that [completed] does not count: under
    ['continue'] a failed task is counted in [completed] as well. *)
Definition uncounted_errors (s : State) : Z :=
  match onError cfg with
  | Continue => 0
  | _ => Z.of_nat (length (errors s))
  end.

(** The signal an ended run has sent, read off the collected errors. *)
Definition verdict (s : State) : Signal :=
  match errors s with
  | [] => resolve
  | e :: _ =>
      match onError cfg with
      | Abort => reject (Plain e)
      | _ => reject (AggregateError (errors s)
                       (failed_message (length (errors s))))
      end
  end.

(** What holds whenever [trigger], [checkCompletion] or a handler is entered
    or left, for a run with [count <> 0]. *)
Record Inv (s : State) : Prop := mkInv {
  inv_ongoing : ongoing s = Z.of_nat (length (pending s));
  inv_started : 0 <= started s <= Z.max 0 (count cfg);
  inv_calls : calls s = seqZ 0 (started s);
  inv_perm : pending s ++ settled s ≡ₚ calls s;
  inv_errors : errors s = omap failure_of (settled s);
  inv_completed :
    completed s = Z.of_nat (length (settled s)) - uncounted_errors s;
  inv_bound : ongoing s <= Z.max 0 (concurrency cfg);
  inv_draining :
    draining s = true <-> onError cfg = Drain /\ errors s <> [];
  inv_abort : onError cfg = Abort -> ended s = false -> errors s = [];
  inv_running : ended s = false -> signals s = [];
  inv_ended :
    ended s = true ->
    signals s = [verdict s] /\
    (count cfg <= completed s \/
     (onError cfg = Abort /\ errors s <> []) \/
     (draining s = true /\ ongoing s = 0));
}.

(** The indices in [0, count) whose task fails. *)
Definition failing_indices : list Z :=
  filter (fun index => is_Some (failure_of index)) (seqZ 0 (count cfg)).

(** What holds in addition between two callbacks: a run that has not ended
    has a task in flight. *)
Definition Busy (s : State) : Prop :=
  0 < count cfg -> 0 < concurrency cfg -> ended s = false -> 0 < ongoing s.

End Scheduler.

(** ** Example runs *)

(** One task, which fails, under ['continue']. *)
Definition continue_one_failure : PromisePoolOptions :=
  mkOptions 1 1 (fun _ => RejectedWith 7%nat) Continue.

Definition continue_one_failure_end : State :=
  settle continue_one_failure 0 (PromisePool continue_one_failure).

(** Ten tasks, two at a time; task 1 fails; ['drain']. *)
Definition drain_second_fails : PromisePoolOptions :=
  mkOptions 2 10
    (fun index => if index =? 1 then RejectedWith 41%nat else Fulfilled) Drain.

(** Task 1 settles first, then task 0. *)
Definition drain_second_fails_mid : State :=
  settle drain_second_fails 1 (PromisePool drain_second_fails).

Definition drain_second_fails_end : State :=
  settle drain_second_fails 0 drain_second_fails_mid.

(** Five tasks, two at a time; task 0 fails; ['abort']. *)
Definition abort_first_fails : PromisePoolOptions :=
  mkOptions 2 5
    (fun index => if index =? 0 then RejectedWith 13%nat else Fulfilled) Abort.

Definition abort_first_fails_mid : State :=
  settle abort_first_fails 0 (PromisePool abort_first_fails).

(** No task at all. *)
Definition no_tasks : PromisePoolOptions :=
  mkOptions 2 0 (fun _ => Fulfilled) Abort.

(** No room for any task. *)
Definition no_room : PromisePoolOptions :=
  mkOptions 0 3 (fun _ => Fulfilled) Abort.

(** Three tasks, two at a time, all succeeding. *)
Definition three_tasks : PromisePoolOptions :=
  mkOptions 2 3 (fun _ => Fulfilled) Abort.

(** The state in which the handler of task 0 calls [trigger]. *)
Definition three_tasks_entry : State :=
  set_completed 1
    (set_ongoing 1 (take_pending 0 0 (PromisePool three_tasks))).

(** Six tasks, three at a time; the even ones fail; ['continue']. *)
Definition continue_even_fail : PromisePoolOptions :=
  mkOptions 3 6
    (fun index => if Z.even index then RejectedWith (Z.to_nat index)
                  else Fulfilled) Continue.

Definition continue_even_fail_end : State :=
  Nat.iter 6 (settle continue_even_fail 0) (PromisePool continue_even_fail).

(** The three tasks of [three_tasks], settled in the order of their calls. *)
Definition three_tasks_end : State :=
  Nat.iter 3 (settle three_tasks 0) (PromisePool three_tasks).

(** The same three tasks under ['drain']. *)
Definition three_tasks_drain : PromisePoolOptions :=
  mkOptions 2 3 (fun _ => Fulfilled) Drain.

(** Three tasks, one at a time. *)
Definition one_at_a_time : PromisePoolOptions :=
  mkOptions 1 3 (fun _ => Fulfilled) Abort.

Definition one_at_a_time_mid : State :=
  settle one_at_a_time 0 (PromisePool one_at_a_time).

(** A negative number of tasks. *)
Definition negative_count : PromisePoolOptions :=
  mkOptions 2 (-1) (fun _ => Fulfilled) Continue.

(** * Properties *)

(** Boolean tests of the source as propositions. *)
Ltac zbool :=
  repeat match goal with
  | H : context [(?a >=? ?b)] |- _ => rewrite (Z.geb_leb a b) in H
  | |- context [(?a >=? ?b)] => rewrite (Z.geb_leb a b)
  | H : (_ && _) = true |- _ => apply andb_true_iff in H; destruct H
  | H : (_ && _) = false |- _ => apply andb_false_iff in H
  | H : (_ || _) = true |- _ => apply orb_true_iff in H
  | H : (_ || _) = false |- _ => apply orb_false_iff in H; destruct H
  | H : (_ <=? _) = true |- _ => apply Z.leb_le in H
  | H : (_ <=? _) = false |- _ => apply Z.leb_gt in H
  | H : (_ <? _) = true |- _ => apply Z.ltb_lt in H
  | H : (_ <? _) = false |- _ => apply Z.ltb_ge in H
  | H : (_ =? _) = true |- _ => apply Z.eqb_eq in H
  | H : (_ =? _) = false |- _ => apply Z.eqb_neq in H
  | H : (_ <? _)%nat = true |- _ => apply Nat.ltb_lt in H
  | H : (_ <? _)%nat = false |- _ => apply Nat.ltb_ge in H
  end.

Section Recursion.

Variable cfg : PromisePoolOptions.

(** Case analysis on the tests of [trigger], in the order of the source;
    what remains is the branch that launches a task. *)
Ltac trigger_tests s :=
  destruct (ended s) eqn:?; [reflexivity|];
  destruct (completed s >=? count cfg) eqn:?; [reflexivity|];
  destruct (draining s) eqn:?; [reflexivity|];
  destruct (completed s + ongoing s >=? count cfg) eqn:?; [reflexivity|];
  destruct (ongoing s <? concurrency cfg) eqn:?; [|reflexivity];
  zbool.

(** A depth that covers the remaining indices gives the same result as any
    other such depth. *)
Lemma trigger_loop_depth (d1 d2 : nat) (s : State) :
  (Z.to_nat (count cfg - (completed s + ongoing s)) <= d1)%nat ->
  (Z.to_nat (count cfg - (completed s + ongoing s)) <= d2)%nat ->
  trigger_loop cfg d1 s = trigger_loop cfg d2 s.
Proof.
  revert d2 s. induction d1 as [|d1 IH]; intros d2 s H1 H2;
    destruct d2 as [|d2]; simpl; trigger_tests s.
  - reflexivity.
  - lia.
  - lia.
  - apply IH; simpl; lia.
Qed.

(** [trigger] satisfies the recursive equation of lines 59-116. *)
Lemma trigger_unfold (s : State) :
  trigger cfg s =
    if ended s then s
    else if completed s >=? count cfg then checkCompletion cfg s
    else if draining s then checkCompletion cfg s
    else if completed s + ongoing s >=? count cfg then s
    else if ongoing s <? concurrency cfg then trigger cfg (launch s)
    else s.
Proof.
  unfold trigger at 1.
  destruct (Z.to_nat (count cfg - (completed s + ongoing s))) as [|d] eqn:Hd;
    simpl; trigger_tests s.
  - lia.
  - unfold trigger. apply trigger_loop_depth; simpl; lia.
Qed.

(** Induction along the calls of [trigger]: one case per exit of the
    function, and one for the call after a launch. *)
Lemma trigger_ind (P : State -> State -> Prop) :
  (forall s, ended s = true -> P s s) ->
  (forall s, ended s = false -> count cfg <= completed s ->
     P s (checkCompletion cfg s)) ->
  (forall s, ended s = false -> completed s < count cfg ->
     draining s = true -> P s (checkCompletion cfg s)) ->
  (forall s, ended s = false -> completed s < count cfg ->
     draining s = false ->
     count cfg <= completed s + ongoing s \/ concurrency cfg <= ongoing s ->
     P s s) ->
  (forall s, ended s = false -> completed s < count cfg ->
     draining s = false -> completed s + ongoing s < count cfg ->
     ongoing s < concurrency cfg ->
     P (launch s) (trigger cfg (launch s)) -> P s (trigger cfg (launch s))) ->
  forall s, P s (trigger cfg s).
Proof.
  intros Hended Hdone Hdrain Hstop Hlaunch s.
  remember (Z.to_nat (count cfg - (completed s + ongoing s))) as n eqn:Hn.
  revert s Hn. induction (lt_wf n) as [n _ IH]. intros s Hn.
  rewrite trigger_unfold.
  destruct (ended s) eqn:He; [auto|].
  destruct (completed s >=? count cfg) eqn:Hc;
    [apply Hdone; [assumption|zbool; lia]|].
  destruct (draining s) eqn:Hd; [apply Hdrain; zbool; auto; lia|].
  destruct (completed s + ongoing s >=? count cfg) eqn:Hco;
    [apply Hstop; zbool; auto; lia|].
  destruct (ongoing s <? concurrency cfg) eqn:Hon;
    [|apply Hstop; zbool; auto; lia].
  zbool. apply Hlaunch; try assumption; try lia.
  eapply IH; [|reflexivity]. subst n. simpl. lia.
Qed.

End Recursion.

Section Invariants.

Variable cfg : PromisePoolOptions.

Lemma omap_length_le {A B} (f : A -> option B) (l : list A) :
  (length (omap f l) <= length l)%nat.
Proof. induction l as [|x l IH]; csimpl; [lia|]. destruct (f x); simpl; lia. Qed.

Lemma omap_snoc {A B} (f : A -> option B) (l : list A) (x : A) :
  omap f (l ++ [x]) = omap f l ++ match f x with Some y => [y] | None => [] end.
Proof. rewrite omap_app. csimpl. by destruct (f x). Qed.

(** Every started task is either pending or settled. *)
Lemma Inv_started_split (s : State) :
  Inv cfg s ->
  started s = Z.of_nat (length (pending s)) + Z.of_nat (length (settled s)).
Proof.
  intros HI. pose proof (inv_perm _ _ HI) as Hp.
  apply Permutation_length in Hp.
  rewrite (inv_calls _ _ HI), length_app, length_seqZ in Hp.
  pose proof (inv_started _ _ HI). lia.
Qed.

Lemma Inv_errors_le (s : State) :
  Inv cfg s -> (length (errors s) <= length (settled s))%nat.
Proof. intros HI. rewrite (inv_errors _ _ HI). apply omap_length_le. Qed.

Lemma uncounted_errors_bounds (s : State) :
  0 <= uncounted_errors cfg s <= Z.of_nat (length (errors s)).
Proof. unfold uncounted_errors. destruct (onError cfg); lia. Qed.

(** Once [completed] has reached [count], nothing is in flight and nothing
    has failed uncounted. *)
Lemma Inv_all_completed (s : State) :
  Inv cfg s -> count cfg <= completed s ->
  ongoing s = 0 /\ uncounted_errors cfg s = 0 /\
  started s = Z.max 0 (count cfg) /\ completed s = started s.
Proof.
  intros HI Hc.
  pose proof (Inv_started_split _ HI). pose proof (Inv_errors_le _ HI).
  pose proof (uncounted_errors_bounds s).
  pose proof (inv_started _ _ HI). pose proof (inv_completed _ _ HI).
  pose proof (inv_ongoing _ _ HI). lia.
Qed.

(** While nothing has ended or started draining, no error is left out of
    [completed]. *)
Lemma Inv_no_uncounted (s : State) :
  Inv cfg s -> ended s = false -> draining s = false ->
  uncounted_errors cfg s = 0.
Proof.
  intros HI He Hd. unfold uncounted_errors.
  destruct (onError cfg) eqn:Hp; [| |reflexivity].
  - rewrite (inv_abort _ _ HI Hp He). reflexivity.
  - destruct (errors s) eqn:Herr; [reflexivity|].
    assert (draining s = true) as Hd'.
    { apply (inv_draining _ _ HI). split; [assumption|]. rewrite Herr. discriminate. }
    congruence.
Qed.

Lemma Inv_initial : Inv cfg initial.
Proof.
  constructor; simpl; try reflexivity; try lia; try discriminate; auto.
  - unfold uncounted_errors. simpl. destruct (onError cfg); reflexivity.
  - split; [discriminate|]. intros [_ H]. congruence.
Qed.

Lemma checkCompletion_Inv (s : State) :
  Inv cfg s -> Inv cfg (checkCompletion cfg s).
Proof.
  intros HI. unfold checkCompletion.
  destruct (ended s) eqn:He; [assumption|].
  destruct (_ || _) eqn:Hcond; [|assumption].
  assert (Inv cfg (emit (verdict cfg s) (set_ended true s))) as HI'.
  { destruct HI. constructor; simpl; try assumption; try discriminate.
    intros _. rewrite inv_running0 by assumption. split; [reflexivity|].
    zbool. destruct Hcond as [Hc|Hc]; zbool; [left; lia|].
    right; right. split; [assumption|lia]. }
  simpl. destruct (errors s) as [|e l] eqn:Herr.
  - simpl. unfold verdict in HI'. rewrite Herr in HI'. exact HI'.
  - simpl. unfold verdict in HI'. rewrite Herr in HI'.
    destruct (onError cfg) eqn:Hp; try exact HI'.
    pose proof (inv_abort _ _ HI Hp He). congruence.
Qed.

Lemma launch_Inv (s : State) :
  Inv cfg s -> ended s = false -> draining s = false ->
  completed s + ongoing s < count cfg -> ongoing s < concurrency cfg ->
  Inv cfg (launch s).
Proof.
  intros HI He Hd Hc Ho.
  pose proof (Inv_started_split _ HI) as Hsplit.
  pose proof (Inv_no_uncounted _ HI He Hd) as Hun.
  destruct HI. constructor; simpl; try assumption.
  - rewrite length_app. simpl. lia.
  - lia.
  - rewrite seqZ_app by lia. rewrite inv_calls0.
    rewrite (seqZ_cons (0 + started s) 1) by lia.
    reflexivity.
  - rewrite <- inv_perm0. rewrite <- !app_assoc.
    apply Permutation_app_head, Permutation_app_comm.
  - lia.
  - intros Ht. congruence.
Qed.

Lemma trigger_Inv (s : State) : Inv cfg s -> Inv cfg (trigger cfg s).
Proof.
  apply (trigger_ind cfg (fun s r => Inv cfg s -> Inv cfg r)); clear s;
    intros s; intros; auto using checkCompletion_Inv, launch_Inv.
Qed.

(** A pending promise that settles: the list loses one element. *)
Lemma pending_facts (s : State) (k : nat) (index : Z) :
  pending s !! k = Some index ->
  Z.of_nat (length (delete k (pending s))) = Z.of_nat (length (pending s)) - 1 /\
  0 < Z.of_nat (length (pending s)) /\
  pending s ≡ₚ index :: delete k (pending s).
Proof.
  intros Hk. pose proof (lookup_lt_Some _ _ _ Hk) as Hlt.
  split; [|split].
  - rewrite length_delete by eauto. lia.
  - lia.
  - by apply delete_Permutation.
Qed.

Lemma settle_Permutation (p st : list Z) (k : nat) (index : Z) :
  p !! k = Some index -> delete k p ++ st ++ [index] ≡ₚ p ++ st.
Proof.
  intros Hk. transitivity ((index :: delete k p) ++ st).
  - rewrite app_assoc. symmetry. apply Permutation_cons_append.
  - apply Permutation_app_tail. symmetry. by apply delete_Permutation.
Qed.

(** An ended run with a task in flight was aborted by an error. *)
Lemma Inv_ended_in_flight (s : State) :
  Inv cfg s -> ended s = true -> 0 < ongoing s ->
  signals s = [verdict cfg s] /\ onError cfg = Abort /\ errors s <> [].
Proof.
  intros HI He Ho. destruct (inv_ended _ _ HI He) as [Hs Hc].
  split; [assumption|].
  destruct Hc as [Hc|[Hc|[_ Hc]]]; [|assumption|lia].
  apply (Inv_all_completed _ HI) in Hc. lia.
Qed.

Lemma verdict_push (s s' : State) (e : Error) :
  errors s <> [] -> errors s' = errors s ++ [e] -> onError cfg = Abort ->
  verdict cfg s' = verdict cfg s.
Proof.
  intros Hne Hs' Hp. unfold verdict. rewrite Hs', Hp.
  destruct (errors s); [congruence|reflexivity].
Qed.

(** The state in which the fulfilment handler calls [trigger]. *)
Lemma fulfilled_Inv (s : State) (k : nat) (index : Z) :
  Inv cfg s -> pending s !! k = Some index -> task cfg index = Fulfilled ->
  Inv cfg (set_completed (completed s + 1)
             (set_ongoing (ongoing s - 1) (take_pending k index s))).
Proof.
  intros HI Hk Ht.
  destruct (pending_facts _ _ _ Hk) as (Hlen & Hpos & Hperm).
  pose proof (Inv_ended_in_flight _ HI) as Hfl.
  destruct HI. constructor; simpl; try assumption; try lia.
  - rewrite <- inv_perm0. by apply settle_Permutation.
  - rewrite omap_snoc, <- inv_errors0. unfold failure_of. rewrite Ht.
    by rewrite app_nil_r.
  - rewrite length_app. simpl.
    change (uncounted_errors cfg _) with (uncounted_errors cfg s). lia.
  - intros He. destruct Hfl as (Hs & Hp & Hne); [assumption|lia|].
    split; [exact Hs|]. right; left. auto.
Qed.

(** The state in which the rejection handler calls [trigger] under
    ['continue']. *)
Lemma rejected_continue_Inv (s : State) (k : nat) (index : Z) (e : Error) :
  Inv cfg s -> pending s !! k = Some index ->
  task cfg index = RejectedWith e -> onError cfg = Continue ->
  Inv cfg (set_completed (completed s + 1)
             (push_error e
                (set_ongoing (ongoing s - 1) (take_pending k index s)))).
Proof.
  intros HI Hk Ht Hp.
  destruct (pending_facts _ _ _ Hk) as (Hlen & Hpos & Hperm).
  pose proof (Inv_ended_in_flight _ HI) as Hfl.
  destruct HI. constructor; simpl; try assumption; try lia.
  - rewrite <- inv_perm0. by apply settle_Permutation.
  - rewrite omap_snoc, <- inv_errors0. unfold failure_of. by rewrite Ht.
  - rewrite length_app. simpl. revert inv_completed0.
    unfold uncounted_errors. rewrite Hp. simpl. lia.
  - rewrite inv_draining0. rewrite Hp. split; intros [? _]; discriminate.
  - rewrite Hp. discriminate.
  - intros He. destruct Hfl as (_ & Hp' & _); [assumption|lia|congruence].
Qed.

(** The state in which the rejection handler calls [checkCompletion] under
    ['drain']. *)
Lemma rejected_drain_Inv (s : State) (k : nat) (index : Z) (e : Error) :
  Inv cfg s -> pending s !! k = Some index ->
  task cfg index = RejectedWith e -> onError cfg = Drain ->
  Inv cfg (set_draining true
             (push_error e
                (set_ongoing (ongoing s - 1) (take_pending k index s)))).
Proof.
  intros HI Hk Ht Hp.
  destruct (pending_facts _ _ _ Hk) as (Hlen & Hpos & Hperm).
  pose proof (Inv_ended_in_flight _ HI) as Hfl.
  destruct HI. constructor; simpl; try assumption; try lia.
  - rewrite <- inv_perm0. by apply settle_Permutation.
  - rewrite omap_snoc, <- inv_errors0. unfold failure_of. by rewrite Ht.
  - rewrite length_app. simpl. revert inv_completed0.
    unfold uncounted_errors. rewrite Hp. simpl. rewrite length_app. simpl. lia.
  - split; [|reflexivity]. intros _. split; [assumption|].
    by destruct (errors s).
  - rewrite Hp. discriminate.
  - intros He. destruct Hfl as (_ & Hp' & _); [assumption|lia|congruence].
Qed.

(** The rejection handler under ['abort']. *)
Lemma rejected_abort_Inv (s : State) (k : nat) (index : Z) (e : Error) :
  Inv cfg s -> pending s !! k = Some index ->
  task cfg index = RejectedWith e -> onError cfg = Abort ->
  Inv cfg (onRejected cfg e (take_pending k index s)).
Proof.
  intros HI Hk Ht Hp.
  destruct (pending_facts _ _ _ Hk) as (Hlen & Hpos & Hperm).
  pose proof (Inv_ended_in_flight _ HI) as Hfl.
  unfold onRejected. rewrite Hp. simpl.
  destruct (ended s) eqn:He; simpl.
  - destruct Hfl as (Hs & _ & Hne); [reflexivity|destruct HI; lia|].
    destruct HI. constructor; simpl; try assumption; try lia.
    + rewrite <- inv_perm0. by apply settle_Permutation.
    + rewrite omap_snoc, <- inv_errors0. unfold failure_of. by rewrite Ht.
    + rewrite length_app. simpl. revert inv_completed0.
      unfold uncounted_errors. rewrite Hp. simpl. rewrite length_app. simpl. lia.
    + rewrite inv_draining0. rewrite Hp. split; intros [? _]; discriminate.
    + intros; congruence.
    + intros _. split.
      * rewrite Hs. f_equal. symmetry. by apply verdict_push with e.
      * right; left. split; [assumption|]. by destruct (errors s).
  - pose proof (inv_abort _ _ HI Hp He) as Herr.
    destruct HI. constructor; simpl; try assumption; try lia.
    + rewrite <- inv_perm0. by apply settle_Permutation.
    + rewrite omap_snoc, <- inv_errors0. unfold failure_of. by rewrite Ht.
    + rewrite length_app. simpl. revert inv_completed0.
      unfold uncounted_errors. rewrite Hp. simpl. rewrite length_app. simpl. lia.
    + rewrite inv_draining0. rewrite Hp. split; intros [? _]; discriminate.
    + intros _. split.
      * rewrite inv_running0 by assumption. unfold verdict. simpl.
        rewrite Herr, Hp. reflexivity.
      * right; left. split; [assumption|]. by destruct (errors s).
Qed.

(** Every handler keeps the invariant. *)
Lemma settle_Inv (s : State) (k : nat) :
  Inv cfg s -> is_Some (pending s !! k) -> Inv cfg (settle cfg k s).
Proof.
  intros HI [index Hk]. unfold settle. rewrite Hk.
  destruct (task cfg index) as [|e] eqn:Ht.
  - unfold onFulfilled. apply trigger_Inv.
    exact (fulfilled_Inv _ _ _ HI Hk Ht).
  - destruct (onError cfg) eqn:Hp.
    + by apply rejected_abort_Inv.
    + unfold onRejected. rewrite Hp. apply checkCompletion_Inv.
      exact (rejected_drain_Inv _ _ _ _ HI Hk Ht Hp).
    + unfold onRejected. rewrite Hp. apply trigger_Inv.
      exact (rejected_continue_Inv _ _ _ _ HI Hk Ht Hp).
Qed.

(** [checkCompletion] touches [ended] and [signals] only. *)
Lemma checkCompletion_frame (s : State) :
  let r := checkCompletion cfg s in
  completed r = completed s /\ ongoing r = ongoing s /\
  started r = started s /\ draining r = draining s /\
  errors r = errors s /\ pending r = pending s /\ calls r = calls s /\
  settled r = settled s.
Proof.
  unfold checkCompletion. destruct (ended s); [done|].
  destruct (_ || _); [|done]. simpl. by destruct (0 <? _)%nat.
Qed.

(** [checkCompletion] ends the run when everything has completed, and when
    the run is draining it ends the run if nothing is in flight. *)
Lemma checkCompletion_ended (s : State) :
  Inv cfg s -> count cfg <= completed s \/ draining s = true ->
  ended (checkCompletion cfg s) = false -> 0 < ongoing s.
Proof.
  intros HI Hc. unfold checkCompletion.
  destruct (ended s) eqn:He; [congruence|].
  destruct (_ || _) eqn:Hcond.
  { simpl. destruct (0 <? _)%nat; simpl; congruence. }
  intros _. apply orb_false_iff in Hcond as [Hall Hidle].
  destruct Hc as [Hc|Hd]; [zbool; lia|].
  pose proof (Inv_started_split _ HI) as Hsplit.
  pose proof (proj1 (inv_draining _ _ HI) Hd) as [Hp _].
  pose proof (inv_completed _ _ HI) as Hcomp.
  unfold uncounted_errors in Hcomp. rewrite Hp in Hcomp.
  pose proof (inv_ongoing _ _ HI).
  rewrite Hd in Hidle. simpl in Hidle.
  apply andb_false_iff in Hidle as [Hidle|Hidle]; zbool; lia.
Qed.

(** After [trigger], a run that has not ended has a task in flight. *)
Lemma trigger_Busy (s : State) : Inv cfg s -> Busy cfg (trigger cfg s).
Proof.
  intros HI Hcount Hconc. revert HI.
  apply (trigger_ind cfg
           (fun s r => Inv cfg s -> ended r = false -> 0 < ongoing r));
    clear s; intros s.
  - congruence.
  - intros He Hc HI Hr.
    destruct (checkCompletion_frame s) as (_ & -> & _).
    apply checkCompletion_ended; auto.
  - intros He Hc Hd HI Hr.
    destruct (checkCompletion_frame s) as (_ & -> & _).
    apply checkCompletion_ended; auto.
  - intros He Hc Hd Hstop HI _. lia.
  - intros He Hc Hd Hco Hon IH HI. apply IH. by apply launch_Inv.
Qed.

Lemma settle_Busy (s : State) (k : nat) :
  Inv cfg s -> is_Some (pending s !! k) -> Busy cfg (settle cfg k s).
Proof.
  intros HI [index Hk]. unfold settle. rewrite Hk.
  destruct (task cfg index) as [|e] eqn:Ht.
  - unfold onFulfilled. apply trigger_Busy.
    exact (fulfilled_Inv _ _ _ HI Hk Ht).
  - unfold onRejected. destruct (onError cfg) eqn:Hp.
    + intros _ _. simpl. destruct (ended s) eqn:He; simpl; congruence.
    + match goal with
      | |- Busy cfg (checkCompletion cfg ?x) => set (s3 := x)
      end.
      intros _ _ He. destruct (checkCompletion_frame s3) as (_ & -> & _).
      apply checkCompletion_ended; auto.
      exact (rejected_drain_Inv _ _ _ _ HI Hk Ht Hp).
    + apply trigger_Busy.
      exact (rejected_continue_Inv _ _ _ _ HI Hk Ht Hp).
Qed.

(** The start loop. *)
Lemma start_loop_Inv (b : nat) (i : Z) (s : State) :
  Inv cfg s -> Inv cfg (start_loop cfg b i s).
Proof.
  revert i s. induction b as [|b IH]; intros i s HI; simpl;
    destruct (_ && _); auto using trigger_Inv.
Qed.

Lemma start_loop_Busy (b : nat) (i : Z) (s : State) :
  Inv cfg s -> Busy cfg s -> Busy cfg (start_loop cfg b i s).
Proof.
  revert i s. induction b as [|b IH]; intros i s HI HB; simpl;
    destruct (_ && _); auto using trigger_Inv, trigger_Busy.
Qed.

(** The loop runs [min concurrency count] times (not at all when that is
    not positive); its bound is not exhausted. *)
Lemma start_loop_iter (b : nat) (i : Z) (s : State) :
  0 <= i -> (Z.to_nat (count cfg - i) <= b)%nat ->
  start_loop cfg b i s =
  Nat.iter (Z.to_nat (Z.min (concurrency cfg) (count cfg) - i)) (trigger cfg) s.
Proof.
  revert i s. induction b as [|b IH]; intros i s Hi Hb; simpl.
  - destruct (_ && _) eqn:Ht; zbool; [lia|].
    replace (Z.to_nat _) with 0%nat by (destruct Ht; zbool; lia). reflexivity.
  - destruct (_ && _) eqn:Ht; zbool.
    + rewrite IH by lia.
      replace (Z.to_nat (Z.min (concurrency cfg) (count cfg) - i))
        with (S (Z.to_nat (Z.min (concurrency cfg) (count cfg) - (i + 1))))
        by lia.
      by rewrite Nat.iter_succ_r.
    + replace (Z.to_nat _) with 0%nat by (destruct Ht; zbool; lia). reflexivity.
Qed.

Lemma PromisePool_unfold :
  PromisePool cfg =
  let s := Nat.iter (Z.to_nat (Z.min (concurrency cfg) (count cfg)))
             (trigger cfg) initial in
  if count cfg =? 0 then emit resolve s else s.
Proof.
  unfold PromisePool. rewrite start_loop_iter by lia.
  by rewrite Z.sub_0_r.
Qed.

Lemma PromisePool_Inv : count cfg <> 0 -> Inv cfg (PromisePool cfg).
Proof.
  intros Hc. unfold PromisePool.
  destruct (count cfg =? 0) eqn:H0; zbool; [done|].
  apply start_loop_Inv, Inv_initial.
Qed.

Lemma PromisePool_Busy : Busy cfg (PromisePool cfg).
Proof.
  intros Hcount Hconc. unfold PromisePool.
  destruct (count cfg =? 0) eqn:H0; zbool; [lia|].
  destruct (Z.to_nat (count cfg)) as [|b] eqn:Hb; [lia|]. simpl.
  destruct (_ && _) eqn:Ht; [|zbool; destruct Ht; zbool; lia].
  apply start_loop_Busy; auto using trigger_Inv, trigger_Busy, Inv_initial.
Qed.

(** The invariant holds at every observation point of a run with
    [count <> 0]. *)
Lemma reachable_Inv (s : State) :
  count cfg <> 0 -> reachable cfg s -> Inv cfg s /\ Busy cfg s.
Proof.
  intros Hc Hr. induction Hr as [|s k Hr [HI HB] Hk].
  - split; [by apply PromisePool_Inv|apply PromisePool_Busy].
  - split; [by apply settle_Inv|by apply settle_Busy].
Qed.

(** When the start loop does not run, the run consists of its start state. *)
Lemma reachable_idle (s : State) :
  Z.min (concurrency cfg) (count cfg) <= 0 -> reachable cfg s ->
  s = PromisePool cfg /\
  s = if count cfg =? 0 then emit resolve initial else initial.
Proof.
  intros Hmin.
  assert (PromisePool cfg =
            if count cfg =? 0 then emit resolve initial else initial) as Hstart.
  { rewrite PromisePool_unfold.
    replace (Z.to_nat _) with 0%nat by lia. reflexivity. }
  intros Hr. induction Hr as [|s k Hr IH [index Hk]]; [done|].
  destruct IH as [_ IH]. rewrite IH in Hk.
  destruct (count cfg =? 0); simpl in Hk; discriminate.
Qed.

(** In particular with [count = 0]. *)
Lemma reachable_zero (s : State) :
  count cfg = 0 -> reachable cfg s -> s = emit resolve initial.
Proof.
  intros Hc Hr. apply reachable_idle in Hr as [_ ->]; [|lia].
  by rewrite Hc.
Qed.

End Invariants.

Section Frames.

Variable cfg : PromisePoolOptions.

(** [trigger] only launches tasks and possibly ends the run. *)
Lemma trigger_frame (s : State) :
  let r := trigger cfg s in
  completed r = completed s /\ draining r = draining s /\
  errors r = errors s /\ settled r = settled s /\
  exists l, calls r = calls s ++ l /\ pending r = pending s ++ l.
Proof.
  simpl.
  apply (trigger_ind cfg (fun s r =>
    completed r = completed s /\ draining r = draining s /\
    errors r = errors s /\ settled r = settled s /\
    exists l, calls r = calls s ++ l /\ pending r = pending s ++ l));
    clear s; intros s.
  - intros _. repeat split. exists []. by rewrite !app_nil_r.
  - intros _ _. destruct (checkCompletion_frame cfg s)
      as (-> & _ & _ & -> & -> & -> & -> & ->).
    repeat split. exists []. by rewrite !app_nil_r.
  - intros _ _ _. destruct (checkCompletion_frame cfg s)
      as (-> & _ & _ & -> & -> & -> & -> & ->).
    repeat split. exists []. by rewrite !app_nil_r.
  - intros _ _ _ _. repeat split. exists []. by rewrite !app_nil_r.
  - intros _ _ _ _ _ (-> & -> & -> & -> & l & -> & ->).
    repeat split. exists (started s :: l). simpl.
    by rewrite <- !app_assoc.
Qed.

(** A draining or ended run launches nothing. *)
Lemma trigger_no_launch (s : State) :
  ended s = true \/ draining s = true ->
  trigger cfg s = s \/ trigger cfg s = checkCompletion cfg s.
Proof.
  intros H. rewrite trigger_unfold.
  destruct (ended s); [by left|]. destruct (_ >=? _); [by right|].
  destruct (draining s); [by right|]. destruct H; discriminate.
Qed.

(** After the run has ended, a handler only updates the counters. *)
Lemma settle_after_end (s : State) (k : nat) :
  ended s = true ->
  ended (settle cfg k s) = true /\ signals (settle cfg k s) = signals s /\
  calls (settle cfg k s) = calls s.
Proof.
  intros He. unfold settle. destruct (pending s !! k) as [index|]; [|done].
  destruct (task cfg index) as [|e].
  - unfold onFulfilled. rewrite trigger_unfold. simpl. by rewrite He.
  - unfold onRejected. destruct (onError cfg); simpl.
    + by rewrite He.
    + unfold checkCompletion. simpl. by rewrite He.
    + rewrite trigger_unfold. simpl. by rewrite He.
Qed.

(** A handler records the index of its task. *)
Lemma settle_settled (s : State) (k : nat) (index : Z) :
  pending s !! k = Some index ->
  settled (settle cfg k s) = settled s ++ [index].
Proof.
  intros Hk. unfold settle. rewrite Hk. destruct (task cfg index) as [|e].
  - unfold onFulfilled.
    match goal with |- context [trigger cfg ?x] =>
      by destruct (trigger_frame x) as (_ & _ & _ & -> & _) end.
  - unfold onRejected. destruct (onError cfg).
    + simpl. by destruct (ended s).
    + match goal with |- context [checkCompletion cfg ?x] =>
        by destruct (checkCompletion_frame cfg x)
          as (_ & _ & _ & _ & _ & _ & _ & ->) end.
    + match goal with |- context [trigger cfg ?x] =>
        by destruct (trigger_frame x) as (_ & _ & _ & -> & _) end.
Qed.

End Frames.

(** * The specification's claims *)

(** Reachability of the example states. *)
Ltac run_reachable :=
  repeat first
    [ apply reach_start
    | apply reach_settle; [|vm_compute; eexists; reflexivity] ].

(** C4: with [count = 0] the executor calls [resolve] at once and never
    calls the task, whatever [concurrency] and [onError] are; nothing
    happens afterwards. *)
Theorem count_zero_resolves (cfg : PromisePoolOptions) :
  count cfg = 0 ->
  signals (PromisePool cfg) = [resolve] /\
  calls (PromisePool cfg) = [] /\
  forall s, reachable cfg s -> signals s = [resolve] /\ calls s = [].
Proof.
  intros Hc.
  assert (forall s, reachable cfg s -> signals s = [resolve] /\ calls s = [])
    as Hall.
  { intros s Hr. by rewrite (reachable_zero cfg s Hc Hr). }
  destruct (Hall _ (reach_start cfg)). auto.
Qed.

Lemma count_zero_resolves_witness :
  signals (PromisePool no_tasks) = [resolve] /\
  calls (PromisePool no_tasks) = [] /\
  forall s, reachable no_tasks s -> signals s = [resolve] /\ calls s = [].
Proof. apply (count_zero_resolves no_tasks). reflexivity. Defined.

(** C9: with [concurrency <= 0] and [count > 0] the start loop does not
    run: no task is ever called and neither [resolve] nor [reject] is ever
    called, in any state of the run. *)
Theorem no_capacity_hangs (cfg : PromisePoolOptions) (s : State) :
  concurrency cfg <= 0 -> 0 < count cfg -> reachable cfg s ->
  s = initial /\ calls s = [] /\ signals s = [] /\ pending s = [].
Proof.
  intros Hconc Hcount Hr.
  apply reachable_idle in Hr as [_ ->]; [|lia].
  destruct (count cfg =? 0) eqn:H0; zbool; [lia|done].
Qed.

Lemma no_capacity_hangs_witness :
  PromisePool no_room = initial /\ calls (PromisePool no_room) = [] /\
  signals (PromisePool no_room) = [] /\ pending (PromisePool no_room) = [].
Proof.
  apply (no_capacity_hangs no_room (PromisePool no_room));
    [vm_compute; discriminate | reflexivity | apply reach_start].
Defined.

(** The accounting of the counters, for every policy. *)
Lemma reachable_accounting (cfg : PromisePoolOptions) (s : State) :
  reachable cfg s ->
  started s = completed s + uncounted_errors cfg s + ongoing s /\
  started s <= Z.max 0 (count cfg).
Proof.
  intros Hr. destruct (decide (count cfg = 0)) as [Hc|Hc].
  - rewrite (reachable_zero cfg s Hc Hr). unfold uncounted_errors. simpl.
    destruct (onError cfg); lia.
  - apply reachable_Inv in Hr as [HI _]; [|done].
    pose proof (Inv_started_split _ _ HI). destruct HI. lia.
Qed.

(** C1, as the specification states it, fails under ['continue']: after the
    only task has failed, [started = 1] but
    [completed + errors.length + ongoing = 2]. *)
Lemma continue_breaks_accounting :
  reachable continue_one_failure continue_one_failure_end /\
  started continue_one_failure_end = 1 /\
  completed continue_one_failure_end = 1 /\
  errors continue_one_failure_end = [7%nat] /\
  ongoing continue_one_failure_end = 0 /\
  started continue_one_failure_end <>
    completed continue_one_failure_end
    + Z.of_nat (length (errors continue_one_failure_end))
    + ongoing continue_one_failure_end.
Proof.
  split; [unfold continue_one_failure_end; run_reachable|].
  vm_compute. repeat split; discriminate.
Qed.

(** C1, amended: at every observation point
    [started = completed + errors.length + ongoing] under ['abort'] and
    ['drain'], and [started = completed + ongoing] under ['continue'], where
    [completed] counts the failed tasks too; [started <= count] for every
    [count >= 0]. *)
Theorem accounting_invariant (cfg : PromisePoolOptions) (s : State) :
  0 <= count cfg -> reachable cfg s ->
  (onError cfg <> Continue ->
   started s = completed s + Z.of_nat (length (errors s)) + ongoing s) /\
  (onError cfg = Continue -> started s = completed s + ongoing s) /\
  started s <= count cfg.
Proof.
  intros Hc Hr. destruct (reachable_accounting cfg s Hr) as [Hacc Hle].
  unfold uncounted_errors in Hacc.
  split; [|split]; [| |lia]; intros Hp; destruct (onError cfg); try done; lia.
Qed.

Lemma accounting_invariant_witness :
  (onError continue_one_failure <> Continue ->
   started continue_one_failure_end =
     completed continue_one_failure_end
     + Z.of_nat (length (errors continue_one_failure_end))
     + ongoing continue_one_failure_end) /\
  (onError continue_one_failure = Continue ->
   started continue_one_failure_end =
     completed continue_one_failure_end + ongoing continue_one_failure_end) /\
  started continue_one_failure_end <= count continue_one_failure.
Proof.
  apply (accounting_invariant continue_one_failure continue_one_failure_end);
    [vm_compute; discriminate | unfold continue_one_failure_end; run_reachable].
Defined.

(** A run is either idle from the start or obeys the invariant. *)
Lemma reachable_cases (cfg : PromisePoolOptions) (s : State) :
  reachable cfg s ->
  (Z.min (concurrency cfg) (count cfg) <= 0 /\
   s = if count cfg =? 0 then emit resolve initial else initial) \/
  (0 < concurrency cfg /\ 0 < count cfg /\ Inv cfg s /\
   (ended s = false -> 0 < ongoing s)).
Proof.
  intros Hr. destruct (decide (Z.min (concurrency cfg) (count cfg) <= 0)) as [Hm|Hm].
  - left. split; [done|]. by apply reachable_idle.
  - right. apply reachable_Inv in Hr as [HI HB]; [|lia].
    split; [lia|]. split; [lia|]. split; [done|]. apply HB; lia.
Qed.

(** In a run that obeys the invariant, a signal has been sent exactly when
    the run has ended. *)
Lemma Inv_signals (cfg : PromisePoolOptions) (s : State) :
  Inv cfg s ->
  (ended s = false /\ signals s = []) \/
  (ended s = true /\ signals s = [verdict cfg s]).
Proof.
  intros HI. destruct (ended s) eqn:He.
  - right. split; [done|]. by apply (inv_ended _ _ HI).
  - left. split; [done|]. by apply (inv_running _ _ HI).
Qed.

(** C10: under ['abort'] and ['drain'],
    [started = completed + errors.length + ongoing] after every step of the
    scheduler.  Hence a draining run under ['drain'] has ended, and has sent
    its signal, exactly when nothing is in flight; and on a state with this
    accounting that is draining and not ended, [checkCompletion] ends the
    run exactly when [ongoing] is 0. *)
Theorem drain_ends_when_idle (cfg : PromisePoolOptions) (s : State) :
  onError cfg <> Continue -> reachable cfg s ->
  started s = completed s + Z.of_nat (length (errors s)) + ongoing s /\
  (onError cfg = Drain -> draining s = true ->
   (ended s = true <-> ongoing s = 0) /\
   (signals s <> [] <-> ongoing s = 0)) /\
  (forall t, ended t = false -> draining t = true ->
     completed t < count cfg ->
     started t = completed t + Z.of_nat (length (errors t)) + ongoing t ->
     (ended (checkCompletion cfg t) = true <-> ongoing t = 0)).
Proof.
  intros Hp Hr. split; [|split].
  - destruct (reachable_accounting cfg s Hr) as [Hacc _].
    unfold uncounted_errors in Hacc. by destruct (onError cfg).
  - intros Hdrain Hd.
    destruct (reachable_cases cfg s Hr) as [[_ ->]|(Hconc & Hcount & HI & HB)].
    { destruct (count cfg =? 0); discriminate. }
    assert (ended s = true <-> ongoing s = 0) as Hiff.
    { split.
      - intros He. destruct (inv_ended _ _ HI He) as [_ [Hc|[[Hc _]|[_ Hc]]]].
        + by apply (Inv_all_completed _ _ HI).
        + congruence.
        + done.
      - intros Ho. destruct (ended s); [done|]. specialize (HB eq_refl). lia. }
    split; [done|]. rewrite <- Hiff.
    destruct (Inv_signals cfg s HI) as [[-> ->]|[-> ->]]; split; done.
  - intros t He Hd Hc Hacc. unfold checkCompletion. rewrite He, Hd.
    destruct (completed t >=? count cfg) eqn:Hall; zbool; [lia|]. simpl.
    destruct (started t =? _) eqn:Heq; zbool; [|lia]. simpl.
    destruct (ongoing t =? 0) eqn:Ho; zbool.
    + simpl. by destruct (0 <? _)%nat.
    + simpl. rewrite He. split; [discriminate|lia].
Qed.

Lemma drain_ends_when_idle_witness :
  started drain_second_fails_end =
    completed drain_second_fails_end
    + Z.of_nat (length (errors drain_second_fails_end))
    + ongoing drain_second_fails_end /\
  (onError drain_second_fails = Drain ->
   draining drain_second_fails_end = true ->
   (ended drain_second_fails_end = true <->
    ongoing drain_second_fails_end = 0) /\
   (signals drain_second_fails_end <> [] <->
    ongoing drain_second_fails_end = 0)) /\
  (forall t, ended t = false -> draining t = true ->
     completed t < count drain_second_fails ->
     started t = completed t + Z.of_nat (length (errors t)) + ongoing t ->
     (ended (checkCompletion drain_second_fails t) = true <-> ongoing t = 0)).
Proof.
  apply (drain_ends_when_idle drain_second_fails drain_second_fails_end);
    [discriminate
    | unfold drain_second_fails_end, drain_second_fails_mid; run_reachable].
Defined.

(** The example: task 1 fails while task 0 is in flight, nothing ends;
    when task 0 has settled the run rejects with the aggregate. *)
Example drain_second_fails_trace :
  draining drain_second_fails_mid = true /\
  ended drain_second_fails_mid = false /\
  ongoing drain_second_fails_mid = 1 /\
  calls drain_second_fails_end = [0; 1] /\
  signals drain_second_fails_end =
    [reject (AggregateError [41%nat] "1 task(s) failed")].
Proof. vm_compute. done. Qed.

(** C2: under ['abort'], as soon as a task has failed the run has ended
    and [reject] has been called once, with the error of the first task that
    failed, as it is; nothing else has been signalled.  The step in which the
    first failure is handled sends the signal itself, leaves the other
    pending tasks in flight and launches nothing. *)
Theorem abort_rejects_with_first_failure (cfg : PromisePoolOptions) (s : State) :
  onError cfg = Abort -> reachable cfg s ->
  errors s = omap (failure_of cfg) (settled s) /\
  (forall e rest, errors s = e :: rest ->
     ended s = true /\ signals s = [reject (Plain e)]) /\
  (forall k index e,
     errors s = [] -> pending s !! k = Some index ->
     task cfg index = RejectedWith e ->
     errors (settle cfg k s) = [e] /\
     signals (settle cfg k s) = [reject (Plain e)] /\
     pending (settle cfg k s) = delete k (pending s) /\
     calls (settle cfg k s) = calls s).
Proof.
  intros Hp Hr.
  assert (forall t, reachable cfg t -> forall e rest, errors t = e :: rest ->
            ended t = true /\ signals t = [reject (Plain e)]) as Hfirst.
  { intros t Ht e rest Herr.
    destruct (reachable_cases cfg t Ht) as [[_ ->]|(_ & _ & HI & _)].
    { destruct (count cfg =? 0); discriminate. }
    destruct (Inv_signals cfg t HI) as [[He _]|[He Hs]].
    - rewrite (inv_abort _ _ HI Hp He) in Herr. discriminate.
    - split; [done|]. rewrite Hs. unfold verdict. by rewrite Herr, Hp. }
  split; [|split].
  - destruct (reachable_cases cfg s Hr) as [[_ ->]|(_ & _ & HI & _)].
    + by destruct (count cfg =? 0).
    + apply (inv_errors _ _ HI).
  - by apply Hfirst.
  - intros k index e Herr Hk Ht.
    assert (errors (settle cfg k s) = [e] /\
            pending (settle cfg k s) = delete k (pending s) /\
            calls (settle cfg k s) = calls s) as (He' & Hpend & Hcalls).
    { unfold settle. rewrite Hk, Ht. unfold onRejected. rewrite Hp. simpl.
      destruct (ended s); simpl; by rewrite Herr. }
    split; [done|]. split; [|done].
    apply (Hfirst (settle cfg k s)) with (rest := []); [|done].
    constructor; eauto.
Qed.

Lemma abort_rejects_with_first_failure_witness :
  errors abort_first_fails_mid =
    omap (failure_of abort_first_fails) (settled abort_first_fails_mid) /\
  (forall e rest, errors abort_first_fails_mid = e :: rest ->
     ended abort_first_fails_mid = true /\
     signals abort_first_fails_mid = [reject (Plain e)]) /\
  (forall k index e,
     errors abort_first_fails_mid = [] ->
     pending abort_first_fails_mid !! k = Some index ->
     task abort_first_fails index = RejectedWith e ->
     errors (settle abort_first_fails k abort_first_fails_mid) = [e] /\
     signals (settle abort_first_fails k abort_first_fails_mid) =
       [reject (Plain e)] /\
     pending (settle abort_first_fails k abort_first_fails_mid) =
       delete k (pending abort_first_fails_mid) /\
     calls (settle abort_first_fails k abort_first_fails_mid) =
       calls abort_first_fails_mid).
Proof.
  apply (abort_rejects_with_first_failure abort_first_fails
           abort_first_fails_mid);
    [reflexivity | unfold abort_first_fails_mid; run_reachable].
Defined.

(** The example: task 0 fails while task 1 is in flight; the run rejects
    with that very error and task 1 stays pending. *)
Example abort_first_fails_trace :
  pending (PromisePool abort_first_fails) = [0; 1] /\
  signals abort_first_fails_mid = [reject (Plain 13%nat)] /\
  pending abort_first_fails_mid = [1] /\
  calls abort_first_fails_mid = [0; 1].
Proof. vm_compute. done. Qed.

(** C3: [reject] is never called with an aggregate of no errors.  Under
    ['drain'] and ['continue'], [errors] lists the errors of the failed
    tasks in the order in which the tasks settled, and a run that has ended
    has sent one signal: [resolve] if [errors] is empty, else [reject] with
    the aggregate of [errors] and the message "<errors.length> task(s)
    failed".  This is what [checkCompletion] sends whenever it ends the
    run. *)
Theorem completion_check_outcome (cfg : PromisePoolOptions) (s : State) :
  reachable cfg s ->
  (forall m, reject (AggregateError [] m) ∉ signals s) /\
  (onError cfg <> Abort ->
   errors s = omap (failure_of cfg) (settled s) /\
   (ended s = true ->
    signals s =
      [match errors s with
       | [] => resolve
       | _ :: _ => reject (AggregateError (errors s)
                             (failed_message (length (errors s))))
       end]) /\
   (forall sig, sig ∈ signals s ->
    sig = match errors s with
          | [] => resolve
          | _ :: _ => reject (AggregateError (errors s)
                                (failed_message (length (errors s))))
          end)) /\
  (forall t, ended t = false -> ended (checkCompletion cfg t) = true ->
   signals (checkCompletion cfg t) =
     signals t ++
     [match errors t with
      | [] => resolve
      | _ :: _ => reject (AggregateError (errors t)
                            (failed_message (length (errors t))))
      end]).
Proof.
  intros Hr. split; [|split].
  - intros m Hin.
    destruct (reachable_cases cfg s Hr) as [[_ ->]|(_ & _ & HI & _)].
    { destruct (count cfg =? 0); simpl in Hin; [|inversion Hin].
      apply list_elem_of_singleton in Hin. discriminate. }
    destruct (Inv_signals cfg s HI) as [[_ Hs]|[_ Hs]];
      rewrite Hs in Hin; [inversion Hin|].
    apply list_elem_of_singleton in Hin. unfold verdict in Hin.
    destruct (errors s) eqn:Herr; [discriminate|].
    destruct (onError cfg); congruence.
  - intros Hp.
    destruct (reachable_cases cfg s Hr) as [[_ ->]|(_ & _ & HI & _)].
    { destruct (count cfg =? 0); simpl; (split; [done|]);
        (split; [discriminate|]); intros sig Hin; [|inversion Hin].
      by apply list_elem_of_singleton in Hin. }
    assert (verdict cfg s =
            match errors s with
            | [] => resolve
            | _ :: _ => reject (AggregateError (errors s)
                                  (failed_message (length (errors s))))
            end) as Hv.
    { unfold verdict. destruct (errors s); [done|]. by destruct (onError cfg). }
    split; [apply (inv_errors _ _ HI)|]. rewrite <- Hv.
    destruct (Inv_signals cfg s HI) as [[He Hs]|[He Hs]]; rewrite Hs, He.
    + split; [discriminate|]. intros sig Hin. inversion Hin.
    + split; [done|]. intros sig Hin. by apply list_elem_of_singleton in Hin.
  - intros t He. unfold checkCompletion. rewrite He.
    destruct (_ || _); [|congruence]. intros _. simpl.
    by destruct (errors t).
Qed.

Lemma completion_check_outcome_witness :
  ended continue_even_fail_end = true /\
  signals continue_even_fail_end =
    [reject (AggregateError [0; 2; 4]%nat "3 task(s) failed")].
Proof.
  destruct (completion_check_outcome continue_even_fail continue_even_fail_end)
    as (_ & H & _); [unfold continue_even_fail_end; simpl; run_reachable|].
  destruct H as (_ & H & _); [discriminate|].
  split; [reflexivity|]. rewrite H by reflexivity. reflexivity.
Defined.

(** No task has settled when the executor returns. *)
Lemma PromisePool_frame (cfg : PromisePoolOptions) :
  completed (PromisePool cfg) = 0 /\ errors (PromisePool cfg) = [] /\
  settled (PromisePool cfg) = [] /\ draining (PromisePool cfg) = false.
Proof.
  rewrite PromisePool_unfold. simpl.
  assert (forall n, let r := Nat.iter n (trigger cfg) initial in
            completed r = 0 /\ errors r = [] /\ settled r = [] /\
            draining r = false) as Hiter.
  { induction n as [|n IH]; [done|]. simpl.
    destruct (trigger_frame cfg (Nat.iter n (trigger cfg) initial))
      as (-> & -> & -> & -> & _). exact IH. }
  destruct (count cfg =? 0); apply Hiter.
Qed.

(** A run with [count > 0] has not ended when the executor returns. *)
Lemma PromisePool_not_ended (cfg : PromisePoolOptions) :
  0 < count cfg -> ended (PromisePool cfg) = false.
Proof.
  intros Hc. destruct (ended (PromisePool cfg)) eqn:He; [|done].
  destruct (PromisePool_frame cfg) as (Hcomp & Herr & _ & Hd).
  assert (Inv cfg (PromisePool cfg)) as HI by (apply PromisePool_Inv; lia).
  destruct (inv_ended _ _ HI He) as [_ [H|[[_ H]|[H _]]]];
    [lia|congruence|congruence].
Qed.

(** Without a pending task there is no further step. *)
Lemma steps_idle (cfg : PromisePoolOptions) (s s' : State) :
  pending s = [] -> rtc (step cfg) s s' -> s' = s.
Proof.
  intros Hp Hs. destruct Hs as [|s1 s2 s3 (k & [index Hk] & _) _]; [done|].
  rewrite Hp in Hk. discriminate.
Qed.

(** Once the run has ended, no step sends a signal or calls a task. *)
Lemma steps_after_end (cfg : PromisePoolOptions) (s s' : State) :
  ended s = true -> rtc (step cfg) s s' ->
  ended s' = true /\ signals s' = signals s /\ calls s' = calls s.
Proof.
  intros He Hs. induction Hs as [|s1 s2 s3 (k & Hk & ->) _ IH]; [done|].
  destruct (settle_after_end cfg s1 k He) as (He' & <- & <-). by apply IH.
Qed.

(** C5, as the specification states it, fails for [count = 0]: [resolve]
    is called, the run is over, and [ended] is still [false]; it stays so in
    every state of the run. *)
Lemma no_tasks_never_ended :
  reachable no_tasks (PromisePool no_tasks) /\
  signals (PromisePool no_tasks) = [resolve] /\
  pending (PromisePool no_tasks) = [] /\
  ended (PromisePool no_tasks) = false /\
  forall s, reachable no_tasks s -> ended s = false.
Proof.
  split; [apply reach_start|]. repeat split.
  intros s Hr. by rewrite (reachable_zero no_tasks s eq_refl Hr).
Qed.

(** C5, amended: in a run with positive [concurrency] and [count >= 0],
    [resolve] or [reject] has been called at most once at every point, and
    exactly once when no task is pending.  With [count > 0], [ended] is
    [false] when the executor returns and is [true] exactly when the signal
    has been sent; with [count = 0] it stays [false].  [ended] never goes
    back to [false], and once the signal has been sent no later step sends
    another one or calls a task. *)
Theorem single_outcome (cfg : PromisePoolOptions) (s : State) :
  0 < concurrency cfg -> 0 <= count cfg -> reachable cfg s ->
  (length (signals s) <= 1)%nat /\
  (pending s = [] -> length (signals s) = 1%nat) /\
  (0 < count cfg ->
   ended (PromisePool cfg) = false /\ (ended s = true <-> signals s <> [])) /\
  (count cfg = 0 -> ended s = false) /\
  (forall s', rtc (step cfg) s s' ->
     (ended s = true -> ended s' = true) /\
     (signals s <> [] -> signals s' = signals s /\ calls s' = calls s)).
Proof.
  intros Hconc Hcount Hr.
  destruct (reachable_cases cfg s Hr) as [[Hm ->]|(_ & Hpos & HI & HB)].
  - assert (count cfg = 0) as H0 by lia. rewrite H0. simpl.
    split; [lia|]. split; [done|]. split; [lia|]. split; [done|].
    intros s' Hs. apply steps_idle in Hs; [|done]. by subst s'.
  - pose proof (inv_ongoing _ _ HI) as Hon.
    destruct (Inv_signals cfg s HI) as [[He Hs]|[He Hs]]; rewrite Hs, He.
    + split; [simpl; lia|]. split.
      { intros Hp. rewrite Hp in Hon. specialize (HB He). simpl in Hon. lia. }
      split.
      { intros _. split; [by apply PromisePool_not_ended|]. by split. }
      split; [done|]. intros s' _. by split.
    + split; [simpl; lia|]. split; [done|]. split.
      { intros _. split; [by apply PromisePool_not_ended|]. by split. }
      split; [lia|]. intros s' Hsteps.
      destruct (steps_after_end cfg s s' He Hsteps) as (He' & Hs' & Hc').
      rewrite Hs in Hs'. by repeat split.
Qed.

Lemma single_outcome_witness :
  (length (signals abort_first_fails_mid) <= 1)%nat /\
  (pending abort_first_fails_mid = [] ->
   length (signals abort_first_fails_mid) = 1%nat) /\
  (0 < count abort_first_fails ->
   ended (PromisePool abort_first_fails) = false /\
   (ended abort_first_fails_mid = true <->
    signals abort_first_fails_mid <> [])) /\
  (count abort_first_fails = 0 -> ended abort_first_fails_mid = false) /\
  (forall s', rtc (step abort_first_fails) abort_first_fails_mid s' ->
     (ended abort_first_fails_mid = true -> ended s' = true) /\
     (signals abort_first_fails_mid <> [] ->
      signals s' = signals abort_first_fails_mid /\
      calls s' = calls abort_first_fails_mid)).
Proof.
  apply (single_outcome abort_first_fails abort_first_fails_mid);
    [reflexivity | vm_compute; discriminate
    | unfold abort_first_fails_mid; run_reachable].
Defined.

(** The example: after the abort, task 1 settles; the counters move, the
    signals and the calls do not. *)
Example abort_late_settlement :
  completed abort_first_fails_mid = 0 /\
  ongoing abort_first_fails_mid = 1 /\
  completed (settle abort_first_fails 0 abort_first_fails_mid) = 1 /\
  ongoing (settle abort_first_fails 0 abort_first_fails_mid) = 0 /\
  signals (settle abort_first_fails 0 abort_first_fails_mid) =
    [reject (Plain 13%nat)] /\
  calls (settle abort_first_fails 0 abort_first_fails_mid) = [0; 1].
Proof. vm_compute. done. Qed.

(** The invariant holds wherever [trigger] is entered. *)
Lemma start_entry_Inv (cfg : PromisePoolOptions) (b : nat) (i : Z) (s : State) :
  start_entry cfg b i s -> Inv cfg s.
Proof.
  induction 1; [apply Inv_initial|by apply trigger_Inv].
Qed.

Lemma reachable_pending_Inv (cfg : PromisePoolOptions) (s : State) (k : nat)
    (index : Z) :
  reachable cfg s -> pending s !! k = Some index -> Inv cfg s.
Proof.
  intros Hr Hk.
  destruct (reachable_cases cfg s Hr) as [[_ ->]|(_ & _ & HI & _)]; [|done].
  destruct (count cfg =? 0); discriminate.
Qed.

Lemma trigger_point_Inv (cfg : PromisePoolOptions) (s : State) :
  trigger_point cfg s -> Inv cfg s.
Proof.
  induction 1 as [b i s Hs _|s k index Hr Hk Ht|s k index e Hr Hk Ht Hp
                 |s _ IH He Hc Hd Hco Hon].
  - by apply start_entry_Inv in Hs.
  - apply fulfilled_Inv; eauto using reachable_pending_Inv.
  - apply rejected_continue_Inv; eauto using reachable_pending_Inv.
  - zbool. apply launch_Inv; auto; lia.
Qed.

(** [trigger] never removes a call. *)
Lemma trigger_calls_grow (cfg : PromisePoolOptions) (s : State) :
  (length (calls s) <= length (calls (trigger cfg s)))%nat.
Proof.
  destruct (trigger_frame cfg s) as (_ & _ & _ & _ & l & -> & _).
  rewrite length_app. lia.
Qed.

(** C6, as the specification states it, fails: three tasks, two at a time;
    when task 0 has succeeded, [trigger] is entered with [started = 2],
    [ongoing = 1], [completed = 1].  Then [started + ongoing >= count], and
    yet task 2 is launched. *)
Lemma started_plus_ongoing_launches :
  trigger_point three_tasks three_tasks_entry /\
  ended three_tasks_entry = false /\
  completed three_tasks_entry < count three_tasks /\
  draining three_tasks_entry = false /\
  started three_tasks_entry + ongoing three_tasks_entry >= count three_tasks /\
  calls three_tasks_entry = [0; 1] /\
  calls (trigger three_tasks three_tasks_entry) = [0; 1; 2].
Proof.
  split.
  - exact (tp_fulfilled three_tasks (PromisePool three_tasks) 0 0
             (reach_start _) eq_refl eq_refl).
  - vm_compute. repeat split; discriminate.
Qed.

(** C6, amended: when [trigger] is entered in a run that has not ended,
    with [completed < count] and [draining] false, no task is launched
    exactly when [completed + ongoing >= count] or [ongoing >= concurrency];
    then the state is left as it is.  Otherwise the index [started], which no
    call has used, is taken, [started] and [ongoing] go up by one, the task
    is called and [trigger] is entered again. *)
Theorem trigger_decision (cfg : PromisePoolOptions) (s : State) :
  trigger_point cfg s ->
  ended s = false -> completed s < count cfg -> draining s = false ->
  (calls (trigger cfg s) = calls s <->
   count cfg <= completed s + ongoing s \/ concurrency cfg <= ongoing s) /\
  (count cfg <= completed s + ongoing s \/ concurrency cfg <= ongoing s ->
   trigger cfg s = s) /\
  (completed s + ongoing s < count cfg -> ongoing s < concurrency cfg ->
   (started s ∉ calls s) /\
   started (launch s) = started s + 1 /\
   ongoing (launch s) = ongoing s + 1 /\
   calls (launch s) = calls s ++ [started s] /\
   pending (launch s) = pending s ++ [started s] /\
   trigger_point cfg (launch s) /\
   trigger cfg s = trigger cfg (launch s)).
Proof.
  intros Htp He Hc Hd.
  assert (count cfg <= completed s + ongoing s \/ concurrency cfg <= ongoing s ->
          trigger cfg s = s) as Hstop.
  { intros Hs. rewrite trigger_unfold, He, Hd.
    destruct (completed s >=? count cfg) eqn:H1;
      destruct (completed s + ongoing s >=? count cfg) eqn:H2;
      destruct (ongoing s <? concurrency cfg) eqn:H3;
      try done; zbool; lia. }
  assert (completed s + ongoing s < count cfg -> ongoing s < concurrency cfg ->
          trigger cfg s = trigger cfg (launch s)) as Hgo.
  { intros H2 H3. rewrite trigger_unfold at 1. rewrite He, Hd.
    destruct (completed s >=? count cfg) eqn:H1';
      destruct (completed s + ongoing s >=? count cfg) eqn:H2';
      destruct (ongoing s <? concurrency cfg) eqn:H3';
      try done; zbool; lia. }
  split; [|split; [exact Hstop|]].
  - split; [|by intros Hs; rewrite Hstop].
    intros Hcalls.
    destruct (decide (count cfg <= completed s + ongoing s)); [by left|].
    destruct (decide (concurrency cfg <= ongoing s)); [by right|].
    rewrite Hgo in Hcalls by lia.
    pose proof (trigger_calls_grow cfg (launch s)) as Hgrow.
    rewrite Hcalls in Hgrow. simpl in Hgrow. rewrite length_app in Hgrow.
    simpl in Hgrow. lia.
  - intros H2 H3. split; [|repeat split].
    + rewrite (inv_calls _ _ (trigger_point_Inv cfg s Htp)).
      rewrite elem_of_seqZ. lia.
    + apply tp_rec; auto; rewrite ?Z.geb_leb;
        [apply Z.leb_gt|apply Z.leb_gt|apply Z.ltb_lt]; lia.
    + by apply Hgo.
Qed.

Lemma trigger_decision_witness :
  (calls (trigger three_tasks three_tasks_entry) = calls three_tasks_entry <->
   count three_tasks <= completed three_tasks_entry + ongoing three_tasks_entry \/
   concurrency three_tasks <= ongoing three_tasks_entry) /\
  (count three_tasks <= completed three_tasks_entry + ongoing three_tasks_entry \/
   concurrency three_tasks <= ongoing three_tasks_entry ->
   trigger three_tasks three_tasks_entry = three_tasks_entry) /\
  (completed three_tasks_entry + ongoing three_tasks_entry < count three_tasks ->
   ongoing three_tasks_entry < concurrency three_tasks ->
   (started three_tasks_entry ∉ calls three_tasks_entry) /\
   started (launch three_tasks_entry) = started three_tasks_entry + 1 /\
   ongoing (launch three_tasks_entry) = ongoing three_tasks_entry + 1 /\
   calls (launch three_tasks_entry) =
     calls three_tasks_entry ++ [started three_tasks_entry] /\
   pending (launch three_tasks_entry) =
     pending three_tasks_entry ++ [started three_tasks_entry] /\
   trigger_point three_tasks (launch three_tasks_entry) /\
   trigger three_tasks three_tasks_entry =
     trigger three_tasks (launch three_tasks_entry)).
Proof.
  apply (trigger_decision three_tasks three_tasks_entry);
    [ exact (tp_fulfilled three_tasks (PromisePool three_tasks) 0 0
               (reach_start _) eq_refl eq_refl)
    | reflexivity | reflexivity | reflexivity ].
Defined.

(** A step of a draining run: one task less in flight, nothing launched. *)
Lemma settle_draining (cfg : PromisePoolOptions) (s : State) (k : nat) :
  Inv cfg s -> draining s = true -> is_Some (pending s !! k) ->
  draining (settle cfg k s) = true /\ calls (settle cfg k s) = calls s /\
  ongoing (settle cfg k s) = ongoing s - 1.
Proof.
  intros HI Hd [index Hk]. unfold settle. rewrite Hk.
  destruct (proj1 (inv_draining _ _ HI) Hd) as [Hp _].
  destruct (task cfg index) as [|e].
  - unfold onFulfilled.
    match goal with |- context [trigger cfg ?x] =>
      destruct (trigger_no_launch cfg x) as [->| ->]; [by right|done|];
      by destruct (checkCompletion_frame cfg x)
        as (_ & -> & _ & -> & _ & _ & -> & _)
    end.
  - unfold onRejected. rewrite Hp.
    match goal with |- context [checkCompletion cfg ?x] =>
      by destruct (checkCompletion_frame cfg x)
        as (_ & -> & _ & -> & _ & _ & -> & _)
    end.
Qed.

Lemma steps_draining (cfg : PromisePoolOptions) (s s' : State) :
  reachable cfg s -> draining s = true -> rtc (step cfg) s s' ->
  draining s' = true /\ calls s' = calls s /\ ongoing s' <= ongoing s.
Proof.
  intros Hr Hd Hs. induction Hs as [|s1 s2 s3 (k & Hk & ->) _ IH].
  - repeat split; [done|lia].
  - destruct Hk as [index Hk].
    pose proof (reachable_pending_Inv cfg s1 k index Hr Hk) as HI.
    destruct (settle_draining cfg s1 k HI Hd) as (Hd' & Hc' & Ho'); [eauto|].
    destruct IH as (-> & -> & Ho''); [constructor; eauto|done|].
    repeat split; [done|lia].
Qed.

(** C7: with positive [concurrency], at most [concurrency] tasks are in
    flight at every observation point, and also whenever [trigger] is
    entered or left; [ongoing] is the number of pending task promises.  Once
    [draining] is set it stays set, no task is called any more and [ongoing]
    does not grow. *)
Theorem concurrency_bound (cfg : PromisePoolOptions) (s : State) :
  0 < concurrency cfg -> reachable cfg s ->
  ongoing s = Z.of_nat (length (pending s)) /\
  ongoing s <= concurrency cfg /\
  (forall t, trigger_point cfg t ->
     ongoing t <= concurrency cfg /\ ongoing (trigger cfg t) <= concurrency cfg) /\
  (draining s = true ->
   forall s', rtc (step cfg) s s' ->
     draining s' = true /\ calls s' = calls s /\ ongoing s' <= ongoing s).
Proof.
  intros Hconc Hr. split; [|split; [|split]].
  - destruct (reachable_cases cfg s Hr) as [[_ ->]|(_ & _ & HI & _)].
    + by destruct (count cfg =? 0).
    + apply (inv_ongoing _ _ HI).
  - destruct (reachable_cases cfg s Hr) as [[_ ->]|(_ & _ & HI & _)].
    + destruct (count cfg =? 0); simpl; lia.
    + pose proof (inv_bound _ _ HI). lia.
  - intros t Ht. apply trigger_point_Inv in Ht.
    pose proof (inv_bound _ _ Ht).
    pose proof (inv_bound _ _ (trigger_Inv cfg t Ht)). lia.
  - intros Hd s' Hs. exact (steps_draining cfg s s' Hr Hd Hs).
Qed.

Lemma concurrency_bound_witness :
  ongoing drain_second_fails_mid =
    Z.of_nat (length (pending drain_second_fails_mid)) /\
  ongoing drain_second_fails_mid <= concurrency drain_second_fails /\
  (forall t, trigger_point drain_second_fails t ->
     ongoing t <= concurrency drain_second_fails /\
     ongoing (trigger drain_second_fails t) <= concurrency drain_second_fails) /\
  (draining drain_second_fails_mid = true ->
   forall s', rtc (step drain_second_fails) drain_second_fails_mid s' ->
     draining s' = true /\ calls s' = calls drain_second_fails_mid /\
     ongoing s' <= ongoing drain_second_fails_mid).
Proof.
  apply (concurrency_bound drain_second_fails drain_second_fails_mid);
    [reflexivity | unfold drain_second_fails_mid; run_reachable].
Defined.

(** Every run can be brought to the point where no task is pending: each
    step settles one more of at most [count] tasks. *)
Lemma run_completes (cfg : PromisePoolOptions) (s : State) :
  reachable cfg s -> exists s', rtc (step cfg) s s' /\ pending s' = [].
Proof.
  intros Hr.
  destruct (reachable_cases cfg s Hr) as [[_ Hs]|(_ & Hcount & _ & _)].
  { exists s. split; [done|]. rewrite Hs. by destruct (count cfg =? 0). }
  remember (Z.to_nat (count cfg) - length (settled s))%nat as n eqn:Hn.
  assert (Z.to_nat (count cfg) - length (settled s) <= n)%nat as Hle by lia.
  clear Hn. revert s Hr Hle. induction n as [|n IH]; intros s Hr Hle.
  - destruct (reachable_Inv cfg s) as [HI _]; [lia|done|].
    pose proof (Inv_started_split _ _ HI). pose proof (inv_started _ _ HI).
    exists s. split; [done|]. destruct (pending s); [done|]. simpl in *. lia.
  - destruct (pending s) as [|index l] eqn:Hp; [by exists s|].
    assert (pending s !! 0%nat = Some index) as Hk by (by rewrite Hp).
    destruct (reachable_Inv cfg s) as [HI _]; [lia|done|].
    pose proof (Inv_started_split _ _ HI). pose proof (inv_started _ _ HI).
    destruct (IH (settle cfg 0 s)) as (s' & Hs' & Hp').
    + constructor; eauto.
    + rewrite (settle_settled cfg s 0 index Hk), length_app.
      rewrite Hp in *. simpl in *. lia.
    + exists s'. split; [|done]. eapply rtc_l; [|exact Hs'].
      exists 0%nat. eauto.
Qed.

Lemma omap_length_filter {A B} (f : A -> option B) (l : list A) :
  length (omap f l) = length (filter (fun x => is_Some (f x)) l).
Proof.
  induction l as [|x l IH]; [done|]. csimpl. rewrite filter_cons.
  destruct (f x) as [y|] eqn:Hx.
  - destruct (decide (is_Some (Some y))) as [_|Hn]; [simpl; lia|].
    destruct Hn. eauto.
  - destruct (decide (is_Some None)) as [Hn|_]; [|done].
    by destruct Hn.
Qed.

(** C8: under ['continue'] with positive [concurrency], the calls of the
    task are [0, 1, 2, ...] in this order, each index once, and every run
    can be continued until no task is pending.  At that point every index of
    [0, count) has been called and has settled.  A signal is sent only then,
    and an aggregate that [reject] is called with holds the errors of
    exactly the failing tasks: as many as there are failing indices. *)
Theorem continue_runs_every_task (cfg : PromisePoolOptions) (s : State) :
  onError cfg = Continue -> 0 < concurrency cfg -> reachable cfg s ->
  calls s = seqZ 0 (started s) /\ NoDup (calls s) /\
  (exists s', rtc (step cfg) s s' /\ pending s' = []) /\
  (pending s = [] ->
   calls s = seqZ 0 (count cfg) /\ settled s ≡ₚ seqZ 0 (count cfg) /\
   (forall index, 0 <= index < count cfg -> index ∈ calls s)) /\
  (signals s <> [] -> pending s = []) /\
  (forall errs m, reject (AggregateError errs m) ∈ signals s ->
     errs = omap (failure_of cfg) (settled s) /\
     errs ≡ₚ omap (failure_of cfg) (seqZ 0 (count cfg)) /\
     length errs = length (failing_indices cfg)).
Proof.
  intros Hp Hconc Hr.
  assert (calls s = seqZ 0 (started s)) as Hcalls.
  { destruct (reachable_cases cfg s Hr) as [[_ ->]|(_ & _ & HI & _)].
    - by destruct (count cfg =? 0).
    - apply (inv_calls _ _ HI). }
  assert (pending s = [] ->
          calls s = seqZ 0 (count cfg) /\ settled s ≡ₚ seqZ 0 (count cfg))
    as Hall.
  { intros Hpend.
    destruct (reachable_cases cfg s Hr) as [[Hm ->]|(_ & Hcount & HI & HB)].
    - rewrite seqZ_nil by lia. by destruct (count cfg =? 0).
    - pose proof (inv_ongoing _ _ HI) as Hon. rewrite Hpend in Hon.
      destruct (ended s) eqn:He; [|specialize (HB eq_refl); simpl in Hon; lia].
      destruct (inv_ended _ _ HI He) as [_ [Hc|[[Hc _]|[Hc _]]]].
      + destruct (Inv_all_completed _ _ HI Hc) as (_ & _ & Hst & _).
        pose proof (inv_perm _ _ HI) as Hperm.
        rewrite Hpend, Hcalls in Hperm. simpl in Hperm.
        rewrite Hcalls, Hperm, Hst.
        by replace (Z.max 0 (count cfg)) with (count cfg) by lia.
      + congruence.
      + apply (inv_draining _ _ HI) in Hc as [Hc _]. congruence. }
  assert (signals s <> [] -> pending s = []) as Hquiet.
  { intros Hsig.
    destruct (reachable_cases cfg s Hr) as [[Hm ->]|(_ & Hcount & HI & HB)].
    - by destruct (count cfg =? 0).
    - destruct (Inv_signals cfg s HI) as [[_ Hs]|[He _]]; [congruence|].
      destruct (inv_ended _ _ HI He) as [_ [Hc|[[Hc _]|[Hc _]]]].
      + destruct (Inv_all_completed _ _ HI Hc) as (Hon & _).
        rewrite (inv_ongoing _ _ HI) in Hon.
        destruct (pending s); [done|simpl in Hon; lia].
      + congruence.
      + apply (inv_draining _ _ HI) in Hc as [Hc _]. congruence. }
  split; [done|]. split; [rewrite Hcalls; apply NoDup_seqZ|].
  split; [by apply run_completes|]. split; [|split; [done|]].
  - intros Hpend. destruct (Hall Hpend) as [Hc Hs]. split; [done|].
    split; [done|]. intros index Hi. rewrite Hc, elem_of_seqZ. lia.
  - intros errs m Hin.
    assert (signals s <> []) as Hne by (intros Hnil; rewrite Hnil in Hin; inversion Hin).
    destruct (Hall (Hquiet Hne)) as [_ Hs].
    destruct (reachable_cases cfg s Hr) as [[Hm Hidle]|(_ & Hcount & HI & HB)].
    { rewrite Hidle in Hin. destruct (count cfg =? 0); simpl in Hin;
        [apply list_elem_of_singleton in Hin; discriminate|inversion Hin]. }
    destruct (Inv_signals cfg s HI) as [[_ Hsig]|[_ Hsig]]; [congruence|].
    rewrite Hsig in Hin. apply list_elem_of_singleton in Hin.
    unfold verdict in Hin. rewrite Hp in Hin.
    destruct (errors s) eqn:Herr; [discriminate|].
    injection Hin as -> _. rewrite <- Herr, (inv_errors _ _ HI).
    split; [done|]. split; [by rewrite Hs|].
    unfold failing_indices. rewrite <- omap_length_filter. by rewrite Hs.
Qed.

Lemma continue_runs_every_task_witness :
  calls continue_even_fail_end = [0; 1; 2; 3; 4; 5] /\
  length (failing_indices continue_even_fail) = 3%nat /\
  signals continue_even_fail_end =
    [reject (AggregateError [0; 2; 4]%nat "3 task(s) failed")] /\
  (forall errs m,
     reject (AggregateError errs m) ∈ signals continue_even_fail_end ->
     length errs = 3%nat).
Proof.
  destruct (continue_runs_every_task continue_even_fail continue_even_fail_end)
    as (_ & _ & _ & Hall & _ & Hagg);
    [reflexivity | reflexivity
    | unfold continue_even_fail_end; simpl; run_reachable |].
  destruct Hall as (Hcalls & _); [reflexivity|].
  split; [exact Hcalls|]. split; [reflexivity|]. split; [reflexivity|].
  intros errs m Hin. by destruct (Hagg errs m Hin) as (_ & _ & ->).
Defined.

(** * Further properties of the scheduler *)

(** [checkCompletion] either ends the run or leaves the state as it is. *)
Lemma checkCompletion_fixed (cfg : PromisePoolOptions) (s : State) :
  checkCompletion cfg s = s \/ ended (checkCompletion cfg s) = true.
Proof.
  unfold checkCompletion. destruct (ended s); [by left|].
  destruct (_ || _); [|by left]. right. simpl. by destruct (0 <? _)%nat.
Qed.

(** With everything completed, [checkCompletion] ends the run. *)
Lemma checkCompletion_all_completed (cfg : PromisePoolOptions) (s : State) :
  count cfg <= completed s -> ended (checkCompletion cfg s) = true.
Proof.
  intros Hc. unfold checkCompletion. destruct (ended s) eqn:He; [done|].
  destruct (completed s >=? count cfg) eqn:Hall; [|zbool; lia].
  simpl. by destruct (0 <? _)%nat.
Qed.

(** A second call of [trigger] right after the first changes nothing. *)
Lemma trigger_again (cfg : PromisePoolOptions) (s : State) :
  trigger cfg (trigger cfg s) = trigger cfg s.
Proof.
  apply (trigger_ind cfg (fun _ r => trigger cfg r = r)); clear s; intros s.
  - intros He. rewrite trigger_unfold. by rewrite He.
  - intros _ Hc. rewrite trigger_unfold.
    by rewrite (checkCompletion_all_completed cfg s Hc).
  - intros He Hc Hd.
    destruct (checkCompletion_fixed cfg s) as [Hfix|Hend].
    + rewrite Hfix, trigger_unfold, He, Hd.
      by destruct (completed s >=? count cfg).
    + rewrite trigger_unfold. by rewrite Hend.
  - intros He Hc Hd Hstop. rewrite trigger_unfold, He, Hd.
    destruct (completed s >=? count cfg) eqn:H1;
      destruct (completed s + ongoing s >=? count cfg) eqn:H2;
      destruct (ongoing s <? concurrency cfg) eqn:H3;
      try done; zbool; lia.
  - auto.
Qed.

(** When [trigger] returns with the run neither ended nor draining, every
    slot that work is left for is taken. *)
Lemma trigger_full (cfg : PromisePoolOptions) (s : State) :
  0 < concurrency cfg -> Inv cfg s ->
  ended (trigger cfg s) = false -> draining (trigger cfg s) = false ->
  ongoing (trigger cfg s) =
    Z.min (concurrency cfg) (count cfg - completed (trigger cfg s)).
Proof.
  intros Hconc.
  apply (trigger_ind cfg (fun s r =>
    Inv cfg s -> ended r = false -> draining r = false ->
    ongoing r = Z.min (concurrency cfg) (count cfg - completed r)));
    clear s; intros s.
  - congruence.
  - intros _ Hc _ He. rewrite (checkCompletion_all_completed cfg s Hc) in He.
    discriminate.
  - intros _ _ Hd _ _ Hd'.
    destruct (checkCompletion_frame cfg s) as (_ & _ & _ & Hdr & _). congruence.
  - intros He Hc Hd Hstop HI _ _.
    pose proof (Inv_started_split _ _ HI). pose proof (Inv_errors_le _ _ HI).
    pose proof (uncounted_errors_bounds cfg s).
    destruct HI. lia.
  - intros He Hc Hd Hco Hon IH HI. apply IH. by apply launch_Inv.
Qed.

(** The start loop amounts to one call of [trigger]. *)
Lemma trigger_iter (cfg : PromisePoolOptions) (n : nat) (s : State) :
  Nat.iter (S n) (trigger cfg) s = trigger cfg s.
Proof.
  induction n as [|n IH]; [done|].
  change (Nat.iter (S (S n)) (trigger cfg) s)
    with (trigger cfg (Nat.iter (S n) (trigger cfg) s)).
  rewrite IH. apply trigger_again.
Qed.

Lemma PromisePool_trigger (cfg : PromisePoolOptions) :
  0 < concurrency cfg -> 0 < count cfg ->
  PromisePool cfg = trigger cfg initial.
Proof.
  intros Hconc Hcount. rewrite PromisePool_unfold. simpl.
  destruct (count cfg =? 0) eqn:H0; zbool; [lia|].
  destruct (Z.to_nat (Z.min (concurrency cfg) (count cfg))) as [|n] eqn:Hn;
    [lia|]. apply trigger_iter.
Qed.

(** X1: [trigger] is idempotent, and so any number of calls in a row does
    what the first call does.  The start loop (lines 118-120) relies on
    this: the first call fills the pool, the others find nothing to do. *)
Theorem trigger_idempotent (cfg : PromisePoolOptions) (s : State) :
  trigger cfg (trigger cfg s) = trigger cfg s /\
  forall n, Nat.iter (S n) (trigger cfg) s = trigger cfg s.
Proof. split; [apply trigger_again|]. intros n. apply trigger_iter. Qed.

(** Between two callbacks, a run that has neither ended nor started
    draining has as many tasks in flight as [concurrency] and the tasks not
    yet completed allow. *)
Lemma reachable_full (cfg : PromisePoolOptions) (s : State) :
  0 < concurrency cfg -> 0 <= count cfg -> reachable cfg s ->
  ended s = false -> draining s = false ->
  ongoing s = Z.min (concurrency cfg) (count cfg - completed s).
Proof.
  intros Hconc Hcount Hr. destruct Hr as [|s k Hr [index Hk]].
  - destruct (decide (count cfg = 0)) as [H0|H0].
    + rewrite (reachable_zero cfg _ H0 (reach_start cfg)). simpl. lia.
    + rewrite PromisePool_trigger by lia.
      apply trigger_full; [done|apply Inv_initial].
  - pose proof (reachable_pending_Inv cfg s k index Hr Hk) as HI.
    unfold settle. rewrite Hk. destruct (task cfg index) as [|e] eqn:Ht.
    + unfold onFulfilled. apply trigger_full; [done|].
      exact (fulfilled_Inv cfg _ _ _ HI Hk Ht).
    + unfold onRejected. destruct (onError cfg) eqn:Hp.
      * simpl. destruct (ended s) eqn:He; simpl; congruence.
      * match goal with |- context [checkCompletion cfg ?x] =>
          destruct (checkCompletion_frame cfg x) as (_ & _ & _ & -> & _)
        end. discriminate.
      * apply trigger_full; [done|].
        exact (rejected_continue_Inv cfg _ _ _ _ HI Hk Ht Hp).
Qed.

(** X2: when the executor returns (lines 118-125), with positive
    [concurrency] and [count], the first [min concurrency count] indices
    have been called, in order, all of them are pending, and nothing has
    been signalled. *)
Theorem start_fills_pool (cfg : PromisePoolOptions) :
  0 < concurrency cfg -> 0 < count cfg ->
  PromisePool cfg = trigger cfg initial /\
  calls (PromisePool cfg) = seqZ 0 (Z.min (concurrency cfg) (count cfg)) /\
  pending (PromisePool cfg) = calls (PromisePool cfg) /\
  ongoing (PromisePool cfg) = Z.min (concurrency cfg) (count cfg) /\
  started (PromisePool cfg) = Z.min (concurrency cfg) (count cfg) /\
  completed (PromisePool cfg) = 0 /\
  ended (PromisePool cfg) = false /\
  signals (PromisePool cfg) = [].
Proof.
  intros Hconc Hcount.
  pose proof (PromisePool_trigger cfg Hconc Hcount) as Hstart.
  destruct (PromisePool_frame cfg) as (Hcomp & Herr & Hset & Hd).
  pose proof (PromisePool_not_ended cfg Hcount) as He.
  assert (Inv cfg (PromisePool cfg)) as HI by (apply PromisePool_Inv; lia).
  pose proof (reachable_full cfg _ Hconc ltac:(lia) (reach_start cfg) He Hd)
    as Hfull.
  pose proof (Inv_started_split _ _ HI) as Hsplit.
  rewrite Hset, <- (inv_ongoing _ _ HI) in Hsplit. simpl in Hsplit.
  rewrite Hcomp, Z.sub_0_r in Hfull.
  split; [done|]. split; [by rewrite (inv_calls _ _ HI), Hsplit, Z.add_0_r, Hfull|].
  split.
  { rewrite Hstart.
    destruct (trigger_frame cfg initial) as (_ & _ & _ & _ & l & -> & ->).
    done. }
  split; [done|]. split; [lia|]. split; [done|]. split; [done|].
  by apply (inv_running _ _ HI).
Qed.

Lemma start_fills_pool_witness :
  PromisePool three_tasks = trigger three_tasks initial /\
  calls (PromisePool three_tasks) =
    seqZ 0 (Z.min (concurrency three_tasks) (count three_tasks)) /\
  pending (PromisePool three_tasks) = calls (PromisePool three_tasks) /\
  ongoing (PromisePool three_tasks) =
    Z.min (concurrency three_tasks) (count three_tasks) /\
  started (PromisePool three_tasks) =
    Z.min (concurrency three_tasks) (count three_tasks) /\
  completed (PromisePool three_tasks) = 0 /\
  ended (PromisePool three_tasks) = false /\
  signals (PromisePool three_tasks) = [].
Proof. apply (start_fills_pool three_tasks); reflexivity. Defined.

(** X3: the pool is kept full.  At every observation point of a run with
    positive [concurrency] that has neither ended nor started draining,
    [ongoing = min concurrency (count - completed)]: a slot is free only if
    no index is left for it. *)
Theorem pool_kept_full (cfg : PromisePoolOptions) (s : State) :
  0 < concurrency cfg -> 0 <= count cfg -> reachable cfg s ->
  ended s = false -> draining s = false ->
  ongoing s = Z.min (concurrency cfg) (count cfg - completed s) /\
  Z.of_nat (length (pending s)) =
    Z.min (concurrency cfg) (count cfg - completed s) /\
  started s = Z.min (completed s + concurrency cfg) (count cfg).
Proof.
  intros Hconc Hcount Hr He Hd.
  pose proof (reachable_full cfg s Hconc Hcount Hr He Hd) as Hfull.
  destruct (reachable_cases cfg s Hr) as [[_ Hs]|(_ & _ & HI & _)].
  - rewrite Hs in *. destruct (count cfg =? 0); simpl in *; lia.
  - pose proof (Inv_started_split _ _ HI).
    pose proof (Inv_no_uncounted _ _ HI He Hd).
    destruct HI. lia.
Qed.

Lemma pool_kept_full_witness :
  ongoing one_at_a_time_mid =
    Z.min (concurrency one_at_a_time)
          (count one_at_a_time - completed one_at_a_time_mid) /\
  Z.of_nat (length (pending one_at_a_time_mid)) =
    Z.min (concurrency one_at_a_time)
          (count one_at_a_time - completed one_at_a_time_mid) /\
  started one_at_a_time_mid =
    Z.min (completed one_at_a_time_mid + concurrency one_at_a_time)
          (count one_at_a_time).
Proof.
  apply (pool_kept_full one_at_a_time one_at_a_time_mid);
    [ reflexivity | vm_compute; discriminate
    | unfold one_at_a_time_mid; run_reachable | reflexivity | reflexivity ].
Defined.

(** X4: under every policy the task is called with the indices
    [0, 1, 2, ...] in this order, without gaps and without repeats, and
    never with an index outside [0, count). *)
Theorem calls_in_index_order (cfg : PromisePoolOptions) (s : State) :
  reachable cfg s ->
  calls s = seqZ 0 (started s) /\
  0 <= started s <= Z.max 0 (count cfg) /\
  NoDup (calls s) /\
  (forall index, index ∈ calls s -> 0 <= index < count cfg).
Proof.
  intros Hr.
  assert (calls s = seqZ 0 (started s) /\ 0 <= started s <= Z.max 0 (count cfg))
    as [Hcalls Hst].
  { destruct (reachable_cases cfg s Hr) as [[_ ->]|(_ & _ & HI & _)].
    - destruct (count cfg =? 0); simpl; (split; [done|lia]).
    - split; [apply (inv_calls _ _ HI)|apply (inv_started _ _ HI)]. }
  split; [done|]. split; [done|]. rewrite Hcalls.
  split; [apply NoDup_seqZ|]. intros index Hin.
  apply elem_of_seqZ in Hin. lia.
Qed.

Lemma calls_in_index_order_witness :
  calls three_tasks_end = [0; 1; 2] /\
  (forall index, index ∈ calls three_tasks_end -> 0 <= index < 3).
Proof.
  destruct (calls_in_index_order three_tasks three_tasks_end)
    as (Hcalls & _ & _ & Hin);
    [unfold three_tasks_end; simpl; run_reachable|].
  split; [exact Hcalls|exact Hin].
Defined.

(** X5: every task that has been called is either pending or settled, and
    never both; no handler runs twice for the same task, [ongoing] counts
    the pending promises, and at most [count] handlers run in a run. *)
Theorem each_task_settles_once (cfg : PromisePoolOptions) (s : State) :
  reachable cfg s ->
  pending s ++ settled s ≡ₚ calls s /\
  NoDup (pending s ++ settled s) /\
  ongoing s = Z.of_nat (length (pending s)) /\
  Z.of_nat (length (settled s)) <= Z.max 0 (count cfg) /\
  (forall k index, pending s !! k = Some index ->
     settled (settle cfg k s) = settled s ++ [index] /\ index ∉ settled s).
Proof.
  intros Hr.
  assert (pending s ++ settled s ≡ₚ calls s /\
          calls s = seqZ 0 (started s) /\
          ongoing s = Z.of_nat (length (pending s)) /\
          Z.of_nat (length (settled s)) <= Z.max 0 (count cfg))
    as (Hperm & Hcalls & Hon & Hlen).
  { destruct (reachable_cases cfg s Hr) as [[_ ->]|(_ & _ & HI & _)].
    - destruct (count cfg =? 0); simpl; repeat split; done || lia.
    - pose proof (Inv_started_split _ _ HI). destruct HI.
      repeat split; done || lia. }
  assert (NoDup (pending s ++ settled s)) as Hnd.
  { rewrite Hperm, Hcalls. apply NoDup_seqZ. }
  split; [done|]. split; [done|]. split; [done|]. split; [done|].
  intros k index Hk. split; [by apply settle_settled|].
  apply NoDup_app in Hnd as (_ & Hdisj & _). apply Hdisj.
  by apply list_elem_of_lookup_2 in Hk.
Qed.

Lemma each_task_settles_once_witness :
  pending abort_first_fails_mid ++ settled abort_first_fails_mid
    ≡ₚ calls abort_first_fails_mid /\
  NoDup (pending abort_first_fails_mid ++ settled abort_first_fails_mid) /\
  ongoing abort_first_fails_mid =
    Z.of_nat (length (pending abort_first_fails_mid)) /\
  Z.of_nat (length (settled abort_first_fails_mid))
    <= Z.max 0 (count abort_first_fails) /\
  (forall k index, pending abort_first_fails_mid !! k = Some index ->
     settled (settle abort_first_fails k abort_first_fails_mid) =
       settled abort_first_fails_mid ++ [index] /\
     index ∉ settled abort_first_fails_mid).
Proof.
  apply (each_task_settles_once abort_first_fails abort_first_fails_mid).
  unfold abort_first_fails_mid. run_reachable.
Defined.

(** X6: negative [count]: the start loop does not run and the guard
    [count === 0] does not fire, so the task is never called and neither
    [resolve] nor [reject] is ever called, whatever [concurrency] and
    [onError] are. *)
Theorem negative_count_hangs (cfg : PromisePoolOptions) (s : State) :
  count cfg < 0 -> reachable cfg s ->
  s = initial /\ calls s = [] /\ signals s = [] /\ pending s = [].
Proof.
  intros Hcount Hr. apply reachable_idle in Hr as [_ ->]; [|lia].
  destruct (count cfg =? 0) eqn:H0; zbool; [lia|done].
Qed.

Lemma negative_count_hangs_witness :
  PromisePool negative_count = initial /\
  calls (PromisePool negative_count) = [] /\
  signals (PromisePool negative_count) = [] /\
  pending (PromisePool negative_count) = [].
Proof.
  apply (negative_count_hangs negative_count (PromisePool negative_count));
    [reflexivity | apply reach_start].
Defined.

Lemma failure_of_Some (cfg : PromisePoolOptions) (index : Z) (e : Error) :
  failure_of cfg index = Some e <-> task cfg index = RejectedWith e.
Proof.
  unfold failure_of. destruct (task cfg index); split; congruence.
Qed.

Lemma omap_nil_iff {A B} (f : A -> option B) (l : list A) :
  omap f l = [] <-> forall x, x ∈ l -> f x = None.
Proof.
  split.
  - intros Hnil x Hx. destruct (f x) as [y|] eqn:Hfx; [|done].
    assert (y ∈ omap f l) as Hy by (apply list_elem_of_omap; eauto).
    rewrite Hnil in Hy. inversion Hy.
  - intros Hall. destruct (omap f l) as [|y l'] eqn:Ho; [done|].
    assert (y ∈ omap f l) as Hy by (rewrite Ho; left).
    apply list_elem_of_omap in Hy as (x & Hx & Hfx).
    rewrite (Hall x Hx) in Hfx. discriminate.
Qed.

(** What an ended run that obeys the invariant has waited for. *)
Lemma Inv_ended_cases (cfg : PromisePoolOptions) (s : State) :
  0 < count cfg -> Inv cfg s -> ended s = true ->
  (pending s = [] /\ started s = count cfg /\ uncounted_errors cfg s = 0) \/
  (onError cfg = Abort /\ errors s <> []) \/
  (onError cfg = Drain /\ errors s <> [] /\ pending s = []).
Proof.
  intros Hcount HI He.
  pose proof (inv_ongoing _ _ HI) as Hon.
  destruct (inv_ended _ _ HI He) as [_ [Hc|[Hc|[Hd Ho]]]].
  - left. destruct (Inv_all_completed _ _ HI Hc) as (Ho & Hun & Hst & _).
    rewrite Ho in Hon. split; [|split; [lia|done]].
    destruct (pending s); [done|simpl in Hon; lia].
  - by right; left.
  - right; right. apply (inv_draining _ _ HI) in Hd as [Hp Herr].
    rewrite Ho in Hon. split; [done|]. split; [done|].
    destruct (pending s); [done|simpl in Hon; lia].
Qed.

(** X7: the pool resolves only after everything has succeeded: if
    [resolve] has been called, it is the only signal, no task is pending, no
    error has been collected, every index of [0, count) has been called and
    has settled, and each of these tasks fulfilled. *)
Theorem resolve_means_all_succeeded (cfg : PromisePoolOptions) (s : State) :
  reachable cfg s -> resolve ∈ signals s ->
  signals s = [resolve] /\ errors s = [] /\ pending s = [] /\
  calls s = seqZ 0 (count cfg) /\ settled s ≡ₚ seqZ 0 (count cfg) /\
  (forall index, 0 <= index < count cfg -> task cfg index = Fulfilled).
Proof.
  intros Hr Hin.
  destruct (reachable_cases cfg s Hr) as [[_ Hs]|(_ & Hcount & HI & _)].
  - rewrite Hs in *. destruct (count cfg =? 0) eqn:H0; [|inversion Hin].
    zbool. rewrite H0. simpl. repeat split; try done. intros index Hi. lia.
  - destruct (Inv_signals cfg s HI) as [[_ Hsig]|[He Hsig]];
      rewrite Hsig in Hin; [inversion Hin|].
    apply list_elem_of_singleton in Hin. rewrite Hsig, <- Hin.
    assert (errors s = []) as Herr.
    { unfold verdict in Hin. destruct (errors s); [done|].
      destruct (onError cfg); discriminate. }
    destruct (Inv_ended_cases cfg s Hcount HI He)
      as [(Hpend & Hst & _)|[[_ H]|(_ & H & _)]]; [|congruence|congruence].
    pose proof (inv_perm _ _ HI) as Hperm.
    rewrite Hpend, (inv_calls _ _ HI), Hst in Hperm. simpl in Hperm.
    split; [done|]. split; [done|]. split; [done|].
    split; [by rewrite (inv_calls _ _ HI), Hst|]. split; [done|].
    intros index Hi.
    assert (failure_of cfg index = None) as Hnone.
    { eapply omap_nil_iff; [by rewrite <- (inv_errors _ _ HI)|].
      rewrite Hperm, elem_of_seqZ. lia. }
    unfold failure_of in Hnone. by destruct (task cfg index).
Qed.

Lemma resolve_means_all_succeeded_witness :
  signals three_tasks_end = [resolve] /\ errors three_tasks_end = [] /\
  pending three_tasks_end = [] /\
  calls three_tasks_end = seqZ 0 (count three_tasks) /\
  settled three_tasks_end ≡ₚ seqZ 0 (count three_tasks) /\
  (forall index, 0 <= index < count three_tasks ->
     task three_tasks index = Fulfilled).
Proof.
  apply (resolve_means_all_succeeded three_tasks three_tasks_end);
    [unfold three_tasks_end; simpl; run_reachable | vm_compute; left].
Defined.

(** X8: the pool rejects only with errors of tasks that have failed.  A
    single error is passed to [reject] only under ['abort'], and a task that
    has settled rejected with it.  An aggregate is passed only under
    ['drain'] and ['continue'], only when no task is pending any more; its
    message is built from its length, and its errors are exactly those the
    called tasks rejected with. *)
Theorem reject_means_failure (cfg : PromisePoolOptions) (s : State) :
  reachable cfg s ->
  (forall e, reject (Plain e) ∈ signals s ->
     onError cfg = Abort /\ signals s = [reject (Plain e)] /\
     exists index, index ∈ settled s /\ task cfg index = RejectedWith e) /\
  (forall errs m, reject (AggregateError errs m) ∈ signals s ->
     onError cfg <> Abort /\ pending s = [] /\
     signals s = [reject (AggregateError errs m)] /\
     m = failed_message (length errs) /\ errs <> [] /\
     (forall e, e ∈ errs <->
        exists index, index ∈ calls s /\ task cfg index = RejectedWith e)).
Proof.
  intros Hr.
  assert (forall sig, sig ∈ signals s -> sig <> resolve ->
            exists HI : Inv cfg s,
              0 < count cfg /\ ended s = true /\ signals s = [sig] /\
              sig = verdict cfg s) as Hsig.
  { intros sig Hin Hne.
    destruct (reachable_cases cfg s Hr) as [[_ Hs]|(_ & Hcount & HI & _)].
    - rewrite Hs in Hin. destruct (count cfg =? 0); simpl in Hin;
        [apply list_elem_of_singleton in Hin; congruence|inversion Hin].
    - exists HI. destruct (Inv_signals cfg s HI) as [[_ Hs]|[He Hs]];
        rewrite Hs in Hin; [inversion Hin|].
      apply list_elem_of_singleton in Hin. by rewrite Hs, Hin. }
  split.
  - intros e Hin. destruct (Hsig _ Hin) as (HI & _ & _ & Hs & Hv); [done|].
    unfold verdict in Hv. destruct (errors s) as [|e' l] eqn:Herr; [done|].
    destruct (onError cfg) eqn:Hp; try discriminate.
    injection Hv as ->. split; [done|]. split; [done|].
    assert (e' ∈ omap (failure_of cfg) (settled s)) as He'.
    { rewrite <- (inv_errors _ _ HI), Herr. left. }
    apply list_elem_of_omap in He' as (index & Hi & Hf).
    exists index. split; [done|]. by apply failure_of_Some.
  - intros errs m Hin.
    destruct (Hsig _ Hin) as (HI & Hcount & He & Hs & Hv); [done|].
    unfold verdict in Hv. destruct (errors s) as [|e' l] eqn:Herr; [done|].
    assert (onError cfg <> Abort /\ errs = errors s /\
            m = failed_message (length errs)) as (Hp & Herrs & Hm).
    { rewrite Herr. destruct (onError cfg); try discriminate;
        injection Hv as -> ->; done. }
    assert (pending s = []) as Hpend.
    { destruct (Inv_ended_cases cfg s Hcount HI He)
        as [(H & _)|[[H _]|(_ & _ & H)]]; done. }
    split; [done|]. split; [done|]. split; [done|]. split; [done|].
    split; [rewrite Herrs, Herr; discriminate|].
    intros e. rewrite Herrs, (inv_errors _ _ HI), list_elem_of_omap.
    pose proof (inv_perm _ _ HI) as Hperm. rewrite Hpend in Hperm.
    simpl in Hperm. setoid_rewrite failure_of_Some.
    by setoid_rewrite Hperm.
Qed.

Lemma reject_means_failure_witness :
  (forall e, reject (Plain e) ∈ signals continue_even_fail_end ->
     onError continue_even_fail = Abort /\
     signals continue_even_fail_end = [reject (Plain e)] /\
     exists index, index ∈ settled continue_even_fail_end /\
                   task continue_even_fail index = RejectedWith e) /\
  (forall errs m,
     reject (AggregateError errs m) ∈ signals continue_even_fail_end ->
     onError continue_even_fail <> Abort /\
     pending continue_even_fail_end = [] /\
     signals continue_even_fail_end = [reject (AggregateError errs m)] /\
     m = failed_message (length errs) /\ errs <> [] /\
     (forall e, e ∈ errs <->
        exists index, index ∈ calls continue_even_fail_end /\
                      task continue_even_fail index = RejectedWith e)).
Proof.
  apply (reject_means_failure continue_even_fail continue_even_fail_end).
  unfold continue_even_fail_end. simpl. run_reachable.
Defined.

(** A pending task has been called, with an index of [0, count). *)
Lemma reachable_pending_range (cfg : PromisePoolOptions) (s : State)
    (index : Z) :
  reachable cfg s -> index ∈ pending s ++ settled s ->
  0 <= index < count cfg.
Proof.
  intros Hr Hin.
  destruct (reachable_cases cfg s Hr) as [[_ Hs]|(_ & _ & HI & _)].
  - rewrite Hs in Hin. destruct (count cfg =? 0); inversion Hin.
  - rewrite (inv_perm _ _ HI), (inv_calls _ _ HI), elem_of_seqZ in Hin.
    pose proof (inv_started _ _ HI). lia.
Qed.

(** X9: if every task of [0, count) fulfils, then under every policy, with
    positive [concurrency] and [count >= 0], no error is collected, [reject]
    is never called, the run never starts draining, and once no task is
    pending [resolve] has been called and every index has been called. *)
Theorem all_succeed_resolves (cfg : PromisePoolOptions) (s : State) :
  (forall index, 0 <= index < count cfg -> task cfg index = Fulfilled) ->
  0 < concurrency cfg -> 0 <= count cfg -> reachable cfg s ->
  errors s = [] /\ draining s = false /\
  (forall r, reject r ∉ signals s) /\
  (pending s = [] ->
   signals s = [resolve] /\ calls s = seqZ 0 (count cfg)).
Proof.
  intros Hok Hconc Hcount Hr.
  destruct (reachable_cases cfg s Hr) as [[Hm Hs]|(_ & Hpos & HI & HB)].
  - assert (count cfg = 0) as H0 by lia. rewrite Hs, H0. simpl.
    split; [done|]. split; [done|]. split; [|done].
    intros r Hin. apply list_elem_of_singleton in Hin. discriminate.
  - assert (errors s = []) as Herr.
    { rewrite (inv_errors _ _ HI). apply omap_nil_iff. intros index Hin.
      unfold failure_of. rewrite Hok; [done|].
      apply (reachable_pending_range cfg s index Hr).
      apply elem_of_app. by right. }
    assert (draining s = false) as Hd.
    { destruct (draining s) eqn:Hd; [|done].
      apply (inv_draining _ _ HI) in Hd as [_ Hd]. congruence. }
    assert (verdict cfg s = resolve) as Hv by (unfold verdict; by rewrite Herr).
    split; [done|]. split; [done|]. split.
    + intros r Hin.
      destruct (Inv_signals cfg s HI) as [[_ Hs]|[_ Hs]];
        rewrite Hs in Hin; [inversion Hin|].
      apply list_elem_of_singleton in Hin. congruence.
    + intros Hpend. pose proof (inv_ongoing _ _ HI) as Hon.
      rewrite Hpend in Hon. simpl in Hon.
      destruct (ended s) eqn:He; [|specialize (HB eq_refl); lia].
      destruct (Inv_signals cfg s HI) as [[? _]|[_ Hs]]; [congruence|].
      split; [by rewrite Hs, Hv|].
      destruct (Inv_ended_cases cfg s Hpos HI He)
        as [(_ & Hst & _)|[[_ H]|(_ & H & _)]]; [|congruence|congruence].
      by rewrite (inv_calls _ _ HI), Hst.
Qed.

Lemma all_succeed_resolves_witness :
  errors three_tasks_end = [] /\ draining three_tasks_end = false /\
  (forall r, reject r ∉ signals three_tasks_end) /\
  (pending three_tasks_end = [] ->
   signals three_tasks_end = [resolve] /\
   calls three_tasks_end = seqZ 0 (count three_tasks)).
Proof.
  apply (all_succeed_resolves three_tasks three_tasks_end);
    [ reflexivity | reflexivity | vm_compute; discriminate
    | unfold three_tasks_end; simpl; run_reachable ].
Defined.

(** [checkCompletion], [trigger] and the executor do not look at
    [onError] or at the task. *)
Lemma checkCompletion_policy (cfg cfg' : PromisePoolOptions) (s : State) :
  count cfg' = count cfg -> checkCompletion cfg' s = checkCompletion cfg s.
Proof. intros Hc. unfold checkCompletion. by rewrite Hc. Qed.

Lemma trigger_policy (cfg cfg' : PromisePoolOptions) (s : State) :
  concurrency cfg' = concurrency cfg -> count cfg' = count cfg ->
  trigger cfg' s = trigger cfg s.
Proof.
  intros Hconc Hcount. unfold trigger. rewrite Hcount.
  generalize (Z.to_nat (count cfg - (completed s + ongoing s))).
  intros d. revert s. induction d as [|d IH]; intros s; simpl;
    rewrite Hconc, Hcount, ?IH, (checkCompletion_policy cfg cfg' s Hcount);
    done.
Qed.

Lemma PromisePool_policy (cfg cfg' : PromisePoolOptions) :
  concurrency cfg' = concurrency cfg -> count cfg' = count cfg ->
  PromisePool cfg' = PromisePool cfg.
Proof.
  intros Hconc Hcount.
  assert (forall b i s, start_loop cfg' b i s = start_loop cfg b i s) as Hloop.
  { induction b as [|b IH]; intros i s; simpl;
      rewrite Hconc, Hcount, ?(trigger_policy cfg cfg' s Hconc Hcount), ?IH;
      done. }
  unfold PromisePool. by rewrite Hcount, Hloop.
Qed.

(** X10: [onError] matters only when a task fails.  Two configurations that
    differ in [onError] alone, and whose tasks of [0, count) all fulfil, go
    through the same states. *)
Theorem policy_irrelevant_without_failure (cfg cfg' : PromisePoolOptions)
    (s : State) :
  concurrency cfg' = concurrency cfg -> count cfg' = count cfg ->
  (forall index, task cfg' index = task cfg index) ->
  (forall index, 0 <= index < count cfg -> task cfg index = Fulfilled) ->
  reachable cfg s -> reachable cfg' s.
Proof.
  intros Hconc Hcount Htask Hok Hr.
  induction Hr as [|s k Hr IH [index Hk]].
  - rewrite <- (PromisePool_policy cfg cfg' Hconc Hcount). constructor.
  - assert (settle cfg k s = settle cfg' k s) as ->.
    { unfold settle. rewrite Hk, Htask, Hok.
      - unfold onFulfilled. by rewrite (trigger_policy cfg cfg' _ Hconc Hcount).
      - apply (reachable_pending_range cfg s index Hr).
        apply elem_of_app. left. by apply list_elem_of_lookup_2 in Hk. }
    constructor; eauto.
Qed.

Lemma policy_irrelevant_without_failure_witness :
  reachable three_tasks_drain three_tasks_end.
Proof.
  apply (policy_irrelevant_without_failure three_tasks three_tasks_drain);
    [ reflexivity | reflexivity | reflexivity | reflexivity
    | unfold three_tasks_end; simpl; run_reachable ].
Defined.

(** What a handler does to the lists of calls and of pending promises. *)
Lemma settle_frame (cfg : PromisePoolOptions) (s : State) (k : nat)
    (index : Z) :
  pending s !! k = Some index ->
  exists l, calls (settle cfg k s) = calls s ++ l /\
            pending (settle cfg k s) = delete k (pending s) ++ l.
Proof.
  intros Hk. unfold settle. rewrite Hk. destruct (task cfg index) as [|e].
  - unfold onFulfilled.
    match goal with |- context [trigger cfg ?x] =>
      destruct (trigger_frame cfg x) as (_ & _ & _ & _ & l & -> & ->) end.
    by exists l.
  - unfold onRejected. destruct (onError cfg).
    + exists []. rewrite !app_nil_r. simpl. by destruct (ended s).
    + match goal with |- context [checkCompletion cfg ?x] =>
        destruct (checkCompletion_frame cfg x)
          as (_ & _ & _ & _ & _ & -> & -> & _) end.
      exists []. by rewrite !app_nil_r.
    + match goal with |- context [trigger cfg ?x] =>
        destruct (trigger_frame cfg x) as (_ & _ & _ & _ & l & -> & ->) end.
      by exists l.
Qed.

(** When the executor returns, the calls are the pending promises. *)
Lemma PromisePool_pending (cfg : PromisePoolOptions) :
  calls (PromisePool cfg) = pending (PromisePool cfg).
Proof.
  rewrite PromisePool_unfold. simpl.
  assert (forall n, calls (Nat.iter n (trigger cfg) initial) =
                    pending (Nat.iter n (trigger cfg) initial)) as Hiter.
  { induction n as [|n IH]; [done|]. simpl.
    destruct (trigger_frame cfg (Nat.iter n (trigger cfg) initial))
      as (_ & _ & _ & _ & l & -> & ->). by rewrite IH. }
  destruct (count cfg =? 0); apply Hiter.
Qed.

(** X11: with [concurrency = 1] the tasks run one at a time and in index
    order: at most one promise is pending, the settled tasks are
    [0, 1, ..., n-1] in this order, and a task is called only after all
    tasks before it have settled. *)
Theorem sequential_when_concurrency_one (cfg : PromisePoolOptions) (s : State) :
  concurrency cfg = 1 -> reachable cfg s ->
  (length (pending s) <= 1)%nat /\
  calls s = settled s ++ pending s /\
  settled s = seqZ 0 (Z.of_nat (length (settled s))).
Proof.
  intros Hconc Hr.
  assert (length (pending s) <= 1)%nat as Hone.
  { destruct (reachable_cases cfg s Hr) as [[_ ->]|(_ & _ & HI & _)].
    - destruct (count cfg =? 0); simpl; lia.
    - pose proof (inv_ongoing _ _ HI). pose proof (inv_bound _ _ HI). lia. }
  assert (calls s = settled s ++ pending s) as Horder.
  { clear Hone. induction Hr as [|s k Hr IH [index Hk]].
    - destruct (PromisePool_frame cfg) as (_ & _ & -> & _).
      apply PromisePool_pending.
    - pose proof (reachable_pending_Inv cfg s k index Hr Hk) as HI.
      pose proof (inv_ongoing _ _ HI). pose proof (inv_bound _ _ HI).
      destruct (settle_frame cfg s k index Hk) as (l & -> & ->).
      rewrite (settle_settled cfg s k index Hk), IH.
      destruct (pending s) as [|index' [|? ?]]; simpl in *; [done| |lia].
      destruct k; [|done]. injection Hk as ->. simpl.
      by rewrite <- app_assoc. }
  split; [done|]. split; [done|].
  assert (calls s = seqZ 0 (started s) /\
          started s = Z.of_nat (length (settled s)) + Z.of_nat (length (pending s)))
    as [Hcalls Hst].
  { destruct (reachable_cases cfg s Hr) as [[_ ->]|(_ & _ & HI & _)].
    - by destruct (count cfg =? 0).
    - pose proof (Inv_started_split _ _ HI).
      split; [apply (inv_calls _ _ HI)|lia]. }
  rewrite Hcalls, Hst, seqZ_app in Horder by lia.
  apply app_inj_1 in Horder as [Hs _]; [done|].
  rewrite length_seqZ. lia.
Qed.

Lemma sequential_when_concurrency_one_witness :
  (length (pending one_at_a_time_mid) <= 1)%nat /\
  calls one_at_a_time_mid =
    settled one_at_a_time_mid ++ pending one_at_a_time_mid /\
  settled one_at_a_time_mid =
    seqZ 0 (Z.of_nat (length (settled one_at_a_time_mid))).
Proof.
  apply (sequential_when_concurrency_one one_at_a_time one_at_a_time_mid);
    [reflexivity | unfold one_at_a_time_mid; run_reachable].
Defined.

(** X12: [draining] is set by a failure under ['drain'] and by nothing
    else.  The handler of a failed task under ['drain'] launches nothing, and
    from the first failure on the calls stay what they are: the tasks not
    yet called are never called. *)
Theorem drain_stops_at_first_failure (cfg : PromisePoolOptions) (s : State) :
  reachable cfg s ->
  (draining s = true <-> onError cfg = Drain /\ errors s <> []) /\
  (onError cfg = Drain ->
   (forall k index e, pending s !! k = Some index ->
      task cfg index = RejectedWith e ->
      draining (settle cfg k s) = true /\ calls (settle cfg k s) = calls s) /\
   (errors s <> [] ->
    forall s', rtc (step cfg) s s' ->
      calls s' = calls s /\ errors s' <> [])).
Proof.
  intros Hr.
  assert (draining s = true <-> onError cfg = Drain /\ errors s <> []) as Hd.
  { destruct (reachable_cases cfg s Hr) as [[_ ->]|(_ & _ & HI & _)].
    - destruct (count cfg =? 0); simpl; split; (discriminate || by intros [_ ?]).
    - apply (inv_draining _ _ HI). }
  split; [done|]. intros Hp. split.
  - intros k index e Hk Ht. unfold settle. rewrite Hk, Ht.
    unfold onRejected. rewrite Hp.
    match goal with |- context [checkCompletion cfg ?x] =>
      by destruct (checkCompletion_frame cfg x)
        as (_ & _ & _ & -> & _ & _ & -> & _) end.
  - intros Herr s' Hs.
    assert (draining s = true) as Hdr by (by apply Hd).
    destruct (steps_draining cfg s s' Hr Hdr Hs) as (Hdr' & Hcalls & _).
    split; [done|].
    assert (reachable cfg s') as Hr'.
    { clear -Hr Hs. induction Hs as [|s1 s2 s3 (k & Hk & ->) _ IH]; [done|].
      apply IH. by constructor. }
    destruct (reachable_cases cfg s' Hr') as [[_ Hidle]|(_ & _ & HI & _)].
    + rewrite Hidle in Hdr'. destruct (count cfg =? 0); discriminate.
    + by apply (inv_draining _ _ HI) in Hdr' as [_ ?].
Qed.

Lemma drain_stops_at_first_failure_witness :
  draining drain_second_fails_mid = true /\
  calls drain_second_fails_mid = [0; 1] /\
  (forall s', rtc (step drain_second_fails) drain_second_fails_mid s' ->
     calls s' = [0; 1]).
Proof.
  destruct (drain_stops_at_first_failure drain_second_fails
              drain_second_fails_mid) as [_ H];
    [unfold drain_second_fails_mid; run_reachable|].
  destruct H as [_ H]; [reflexivity|].
  split; [reflexivity|]. split; [reflexivity|].
  intros s' Hs. apply H; [vm_compute; discriminate|exact Hs].
Defined.

Lemma omap_filter_length {A B} (f : A -> option B) (l : list A) :
  length l = (length (omap f l) + length (filter (fun x => f x = None) l))%nat.
Proof.
  induction l as [|x l IH]; [done|]. csimpl. rewrite filter_cons.
  destruct (f x) as [y|] eqn:Hx.
  - destruct (decide (Some y = None)); [done|]. simpl. lia.
  - destruct (decide (None = None)); [|done]. simpl. lia.
Qed.

(** X13: the counters mean what their names say.  [started] is the number
    of calls of the task, [ongoing] the number of pending promises,
    [errors] the errors of the settled tasks in the order in which they
    settled, and [completed] the number of settled tasks that fulfilled,
    except under ['continue'], where it is the number of settled tasks. *)
Theorem counters_count (cfg : PromisePoolOptions) (s : State) :
  reachable cfg s ->
  started s = Z.of_nat (length (calls s)) /\
  ongoing s = Z.of_nat (length (pending s)) /\
  errors s = omap (failure_of cfg) (settled s) /\
  completed s =
    match onError cfg with
    | Continue => Z.of_nat (length (settled s))
    | _ => Z.of_nat (length (filter (fun index => failure_of cfg index = None)
                               (settled s)))
    end.
Proof.
  intros Hr.
  destruct (reachable_cases cfg s Hr) as [[_ ->]|(_ & _ & HI & _)].
  - destruct (count cfg =? 0); simpl; by destruct (onError cfg).
  - pose proof (omap_filter_length (failure_of cfg) (settled s)) as Hlen.
    rewrite <- (inv_errors _ _ HI) in Hlen.
    pose proof (inv_completed _ _ HI) as Hcomp.
    unfold uncounted_errors in Hcomp.
    split.
    { rewrite (inv_calls _ _ HI), length_seqZ.
      pose proof (inv_started _ _ HI). lia. }
    split; [apply (inv_ongoing _ _ HI)|]. split; [apply (inv_errors _ _ HI)|].
    destruct (onError cfg); lia.
Qed.

Lemma counters_count_witness :
  started continue_even_fail_end = 6 /\
  completed continue_even_fail_end =
    Z.of_nat (length (settled continue_even_fail_end)) /\
  errors continue_even_fail_end = [0; 2; 4]%nat.
Proof.
  destruct (counters_count continue_even_fail continue_even_fail_end)
    as (Hst & _ & Herr & Hcomp);
    [unfold continue_even_fail_end; simpl; run_reachable|].
  split; [exact Hst|]. split; [exact Hcomp|exact Herr].
Defined.

(** X14: a run with positive [concurrency] and [count >= 0] cannot get
    stuck short of an outcome: from every observation point the pending
    tasks can settle one after the other until none is left, and the state
    reached then has exactly one signal and no step after it. *)
Theorem run_reaches_single_outcome (cfg : PromisePoolOptions) (s : State) :
  0 < concurrency cfg -> 0 <= count cfg -> reachable cfg s ->
  exists s', rtc (step cfg) s s' /\ pending s' = [] /\
             length (signals s') = 1%nat /\
             (forall s'', rtc (step cfg) s' s'' -> s'' = s').
Proof.
  intros Hconc Hcount Hr.
  destruct (run_completes cfg s Hr) as (s' & Hs & Hpend).
  exists s'. split; [done|]. split; [done|].
  split; [|intros s'' Hs''; by apply (steps_idle cfg s' s'')].
  assert (reachable cfg s') as Hr'.
  { clear -Hr Hs. induction Hs as [|s1 s2 s3 (k & Hk & ->) _ IH]; [done|].
    apply IH. by constructor. }
  destruct (reachable_cases cfg s' Hr') as [[Hm Hidle]|(_ & _ & HI & HB)].
  - assert (count cfg = 0) as H0 by lia. by rewrite Hidle, H0.
  - pose proof (inv_ongoing _ _ HI) as Hon. rewrite Hpend in Hon.
    simpl in Hon.
    destruct (Inv_signals cfg s' HI) as [[He _]|[_ ->]]; [|done].
    specialize (HB He). lia.
Qed.

Lemma run_reaches_single_outcome_witness :
  exists s', rtc (step abort_first_fails) abort_first_fails_mid s' /\
             pending s' = [] /\ length (signals s') = 1%nat /\
             (forall s'', rtc (step abort_first_fails) s' s'' -> s'' = s').
Proof.
  apply (run_reaches_single_outcome abort_first_fails abort_first_fails_mid);
    [ reflexivity | vm_compute; discriminate
    | unfold abort_first_fails_mid; run_reachable ].
Defined.

(** X15: a handler launches at most one task: the slot that the settled
    task has left.  After the run has ended or started draining it launches
    none. *)
Theorem handler_launches_at_most_one (cfg : PromisePoolOptions) (s : State)
    (k : nat) :
  reachable cfg s -> is_Some (pending s !! k) ->
  calls s `prefix_of` calls (settle cfg k s) /\
  (length (calls (settle cfg k s)) <= S (length (calls s)))%nat /\
  (ended s = true \/ draining s = true ->
   calls (settle cfg k s) = calls s).
Proof.
  intros Hr [index Hk].
  destruct (settle_frame cfg s k index Hk) as (l & Hcalls & Hpend).
  split; [rewrite Hcalls; by apply prefix_app_r|].
  destruct (reachable_cases cfg s Hr) as [[_ Hs]|(Hconc & Hcount & HI & _)].
  { rewrite Hs in Hk. destruct (count cfg =? 0); discriminate. }
  assert (ended s = true \/ draining s = true ->
          calls (settle cfg k s) = calls s) as Hnone.
  { intros [He|Hd].
    - by destruct (settle_after_end cfg s k He) as (_ & _ & ->).
    - by destruct (settle_draining cfg s k HI Hd) as (_ & -> & _); eauto. }
  split; [|done].
  destruct (ended s) eqn:He; [rewrite Hnone by auto; lia|].
  destruct (draining s) eqn:Hd; [rewrite Hnone by auto; lia|].
  pose proof (reachable_full cfg s Hconc ltac:(lia) Hr He Hd) as Hfull.
  assert (Inv cfg (settle cfg k s)) as HI' by (apply settle_Inv; eauto).
  pose proof (Inv_started_split _ _ HI) as Hsplit.
  pose proof (Inv_started_split _ _ HI') as Hsplit'.
  pose proof (Inv_errors_le _ _ HI) as Hle.
  pose proof (uncounted_errors_bounds cfg s) as Hun.
  rewrite (settle_settled cfg s k index Hk), length_app in Hsplit'.
  simpl in Hsplit'.
  pose proof (inv_started _ _ HI'). pose proof (inv_bound _ _ HI').
  pose proof (inv_ongoing _ _ HI'). pose proof (inv_ongoing _ _ HI).
  pose proof (inv_completed _ _ HI). pose proof (inv_started _ _ HI).
  assert (started (settle cfg k s) <= started s + 1) as Hst by lia.
  rewrite (inv_calls _ _ HI), (inv_calls _ _ HI'), !length_seqZ. lia.
Qed.

Lemma handler_launches_at_most_one_witness :
  calls (PromisePool three_tasks)
    `prefix_of` calls (settle three_tasks 0 (PromisePool three_tasks)) /\
  (length (calls (settle three_tasks 0 (PromisePool three_tasks)))
   <= S (length (calls (PromisePool three_tasks))))%nat /\
  (ended (PromisePool three_tasks) = true \/
   draining (PromisePool three_tasks) = true ->
   calls (settle three_tasks 0 (PromisePool three_tasks)) =
     calls (PromisePool three_tasks)).
Proof.
  apply (handler_launches_at_most_one three_tasks (PromisePool three_tasks) 0);
    [apply reach_start | vm_compute; eexists; reflexivity].
Defined.
